(** * MediMate chatbot client and transcription server

    A shallow embedding of
    - [formatBotReply] in MediMateBot/client/src/App.jsx (the reply parser),
    - [sendMessage], [startListening], [stopListening], [toggleListening]
      and the MediaRecorder [onstop] handler in the same file,
    - the [POST /transcribe] handler of the chatbot server.

    JavaScript strings are sequences of UTF-16 code units, modelled as
    [list Z]; [js] turns an ASCII literal into such a sequence. *)

From Stdlib Require Import List ZArith String Ascii Bool Lia.
Import ListNotations.
Open Scope Z_scope.

(* ------------------------------------------------------------------ *)
(** ** JavaScript strings *)

Module JStr.

Definition jchar := Z.
Definition jstr := list jchar.

Fixpoint js (s : string) : jstr :=
  match s with
  | EmptyString => []
  | String a s' => Z.of_nat (nat_of_ascii a) :: js s'
  end.

(** Lines joined with ["\n"] (code unit 10). *)
Fixpoint js_lines (ls : list string) : jstr :=
  match ls with
  | [] => []
  | [l] => js l
  | l :: ls' => js l ++ 10 :: js_lines ls'
  end.

(** WhiteSpace and LineTerminator code units: the class [\s] of a regular
    expression and the characters removed by [String.prototype.trim]. *)
Definition is_space (c : jchar) : bool :=
  ((9 <=? c) && (c <=? 13)) || (c =? 32) || (c =? 160) || (c =? 5760)
  || ((8192 <=? c) && (c <=? 8202)) || (c =? 8232) || (c =? 8233)
  || (c =? 8239) || (c =? 8287) || (c =? 12288) || (c =? 65279).

(** LineTerminator code units: those that [.] in a regular expression
    does not match. *)
Definition is_line_terminator (c : jchar) : bool :=
  (c =? 10) || (c =? 13) || (c =? 8232) || (c =? 8233).

Definition is_digit (c : jchar) : bool := (48 <=? c) && (c <=? 57).

Fixpoint drop_while (p : jchar -> bool) (s : jstr) : jstr :=
  match s with
  | [] => []
  | c :: s' => if p c then drop_while p s' else s
  end.

Fixpoint take_while (p : jchar -> bool) (s : jstr) : jstr :=
  match s with
  | [] => []
  | c :: s' => if p c then c :: take_while p s' else []
  end.

(** [s.trim()] *)
Definition trim (s : jstr) : jstr :=
  rev (drop_while is_space (rev (drop_while is_space s))).

(** [s.split(sep)] for a one-code-unit separator. *)
Fixpoint split_on (sep : jchar) (s : jstr) : list jstr :=
  match s with
  | [] => [[]]
  | c :: s' =>
      if c =? sep then [] :: split_on sep s'
      else match split_on sep s' with
           | [] => [[c]]
           | w :: ws => (c :: w) :: ws
           end
  end.

(** [s.startsWith(p)] *)
Fixpoint starts_with (p s : jstr) : bool :=
  match p, s with
  | [], _ => true
  | a :: p', c :: s' => (a =? c) && starts_with p' s'
  | _ :: _, [] => false
  end.

(** Canonicalisation of a code unit by a case-insensitive (non-unicode)
    regular expression: upper-casing, where a code unit at or above 128
    never canonicalises to one below 128. All pattern characters below are
    ASCII, so the identity on non-ASCII code units decides the same
    matches. *)
Definition canon (c : jchar) : jchar :=
  if (97 <=? c) && (c <=? 122) then c - 32 else c.

(** A literal of a case-insensitive regular expression, matched at the
    head of [s]. *)
Fixpoint starts_ci (p s : jstr) : bool :=
  match p, s with
  | [], _ => true
  | a :: p', c :: s' => (canon a =? canon c) && starts_ci p' s'
  | _ :: _, [] => false
  end.

(** [regex.test(s)] for a regular expression without anchor: a match
    starting at some position. *)
Fixpoint test_any (m : jstr -> bool) (s : jstr) : bool :=
  m s || match s with [] => false | _ :: s' => test_any m s' end.

End JStr.
Import JStr.

(* ------------------------------------------------------------------ *)
(** ** The reply parser [formatBotReply] *)

Module Parser.

(** The regular expressions [/severity\s*:/i], [/next\s+steps\s*:/i], ...
    are sequences of case-insensitive literals and whitespace runs. Each
    whitespace run is followed by a literal that does not start with
    whitespace, so the greedy run is the only one that can lead to a
    match: matching needs no backtracking. *)
Inductive atom := Lit (w : jstr) | Spaces0 | Spaces1.

(** Length of the match of a sequence at the head of [s]. *)
Fixpoint match_seq (p : list atom) (s : jstr) : option nat :=
  match p with
  | [] => Some 0%nat
  | Lit w :: p' =>
      if starts_ci w s
      then option_map (Nat.add (List.length w)) (match_seq p' (skipn (List.length w) s))
      else None
  | Spaces0 :: p' =>
      let n := List.length (take_while is_space s) in
      option_map (Nat.add n) (match_seq p' (skipn n s))
  | Spaces1 :: p' =>
      let n := List.length (take_while is_space s) in
      if (n =? 0)%nat then None
      else option_map (Nat.add n) (match_seq p' (skipn n s))
  end.

Definition seq_matches (p : list atom) (s : jstr) : bool :=
  match match_seq p s with Some _ => true | None => false end.

(** [s.replace(regex, "")] for a regular expression without the [g] flag:
    the leftmost match is removed. *)
Fixpoint replace_first (p : list atom) (s : jstr) : jstr :=
  match match_seq p s with
  | Some n => skipn n s
  | None => match s with [] => [] | c :: s' => c :: replace_first p s' end
  end.

(** [.*(doctor|medical)] at the head of [s]: [.] matches any code unit
    but a line terminator. *)
Fixpoint dot_star_alt (s : jstr) : bool :=
  starts_ci (js "doctor") s || starts_ci (js "medical") s
  || match s with
     | [] => false
     | c :: s' => negb (is_line_terminator c) && dot_star_alt s'
     end.

(** [/(see|seek).*(doctor|medical)/i] at the head of [s]. *)
Definition see_doctor_at (s : jstr) : bool :=
  (starts_ci (js "see") s && dot_star_alt (skipn 3 s))
  || (starts_ci (js "seek") s && dot_star_alt (skipn 4 s)).

(** The keys of [matchers], in the insertion order [for ... in] visits. *)
Inductive key :=
  Severity | ImmediateNeed | SeeDoctor | NextSteps | PossibleConditions | Disclaimer.

Definition key_eq_dec (a b : key) : {a = b} + {a <> b}.
Proof. decide equality. Defined.

Definition key_eqb (a b : key) : bool := if key_eq_dec a b then true else false.

Definition matcher_keys : list key :=
  [Severity; ImmediateNeed; SeeDoctor; NextSteps; PossibleConditions; Disclaimer].

(** The sequence regular expressions of [matchers]; [SeeDoctor] has its own
    matcher [see_doctor_at] and is a list section, so its entry here is
    never used. *)
Definition seq_pat (k : key) : list atom :=
  match k with
  | Severity => [Lit (js "severity"); Spaces0; Lit (js ":")]
  | ImmediateNeed =>
      [Lit (js "immediate"); Spaces1; Lit (js "need"); Spaces1; Lit (js "for");
       Spaces1; Lit (js "attention"); Spaces0; Lit (js ":")]
  | SeeDoctor => []
  | NextSteps => [Lit (js "next"); Spaces1; Lit (js "steps"); Spaces0; Lit (js ":")]
  | PossibleConditions =>
      [Lit (js "possible"); Spaces1; Lit (js "conditions"); Spaces0; Lit (js ":")]
  | Disclaimer => [Lit (js "disclaimer"); Spaces0; Lit (js ":")]
  end.

(** [matchers[key].test(line)] *)
Definition key_test (k : key) (line : jstr) : bool :=
  match k with
  | SeeDoctor => test_any see_doctor_at line
  | _ => test_any (seq_matches (seq_pat k)) line
  end.

(** The [for (let key in matchers)] loop: the first key whose matcher
    accepts the line. *)
Fixpoint first_match (ks : list key) (line : jstr) : option key :=
  match ks with
  | [] => None
  | k :: ks' => if key_test k line then Some k else first_match ks' line
  end.

Definition header_of (line : jstr) : option key := first_match matcher_keys line.

(** [["See a Doctor If", "Next Steps", "Possible Conditions"].includes(key)] *)
Definition is_list_key (k : key) : bool :=
  match k with SeeDoctor | NextSteps | PossibleConditions => true | _ => false end.

(** Values stored in [sections]: a string or an array of strings. *)
Inductive sval := SStr (s : jstr) | SArr (l : list jstr).

Record pstate := mkP {
  currentKey : option key;
  sections : key -> option sval
}.

Definition init : pstate := mkP None (fun _ => None).

Definition upd (f : key -> option sval) (k : key) (v : sval) : key -> option sval :=
  fun k' => if key_eqb k k' then Some v else f k'.

(** [currentKey && Array.isArray(sections[currentKey])] *)
Definition current_is_array (st : pstate) : bool :=
  match currentKey st with
  | Some k => match sections st k with Some (SArr _) => true | _ => false end
  | None => false
  end.

(** [sections[currentKey].push(x)]; only reached when [current_is_array]. *)
Definition push (st : pstate) (x : jstr) : pstate :=
  match currentKey st with
  | Some k =>
      match sections st k with
      | Some (SArr l) => mkP (currentKey st) (upd (sections st) k (SArr (l ++ [x])))
      | _ => st
      end
  | None => st
  end.

(** The class [[-•*0-9]] ([•] is U+2022). *)
Definition in_marker_class (c : jchar) : bool :=
  (c =? 45) || (c =? 8226) || (c =? 42) || is_digit c.

(** The class [[-•*0-9.]]. *)
Definition in_marker_dot_class (c : jchar) : bool :=
  in_marker_class c || (c =? 46).

(** [/^[-•*0-9]+\./.test(line)]: the class has no ['.'], so the greedy run
    is the only candidate. *)
Definition numbered_re (line : jstr) : bool :=
  let n := List.length (take_while in_marker_class line) in
  (0 <? n)%nat && starts_with (js ".") (skipn n line).

(** [line.replace(/^[-•*0-9.]+\s*/, "")] *)
Definition strip_marker (line : jstr) : jstr :=
  match take_while in_marker_dot_class line with
  | [] => line
  | _ => drop_while is_space (drop_while in_marker_dot_class line)
  end.

(** The body of [lines.forEach((line) => { ... })]. *)
Definition process_line (st : pstate) (line : jstr) : pstate :=
  match header_of line with
  | Some k =>
      mkP (Some k)
          (upd (sections st) k
               (if is_list_key k then SArr []
                else SStr (trim (replace_first (seq_pat k) line))))
  | None =>
      if starts_with (js "-") line && current_is_array st then
        push st (trim (tl line))
      else if numbered_re line && current_is_array st then
        push st (trim (strip_marker line))
      else st
  end.

(** [text.split("\n").map((l) => l.trim()).filter(Boolean)] *)
Definition lines_of (text : jstr) : list jstr :=
  filter (fun l => match l with [] => false | _ => true end)
         (map trim (split_on 10 text)).

Definition parse_lines (st : pstate) (ls : list jstr) : pstate :=
  fold_left process_line ls st.

(** The [sections] object built by [formatBotReply]; the JSX it returns
    renders these fields. *)
Definition formatBotReply (text : jstr) : pstate :=
  parse_lines init (lines_of text).

End Parser.

(* ------------------------------------------------------------------ *)
(** ** Helper definitions for the statements about the parser *)

Module ParserSpec.
Import Parser.

(** The item the bullet branches of [formatBotReply] push for a line. *)
Definition bullet_item (line : jstr) : jstr :=
  if starts_with (js "-") line then trim (tl line) else trim (strip_marker line).

(** A line that one of the two bullet branches accepts. *)
Definition code_bullet (line : jstr) : bool :=
  starts_with (js "-") line || numbered_re line.

(** A line that begins with one or more digits followed by ['.']. *)
Definition digits_dot (line : jstr) : bool :=
  let n := List.length (take_while is_digit line) in
  (0 <? n)%nat && starts_with (js ".") (skipn n line).



Definition is_header_of (k : key) (line : jstr) : bool :=
  match header_of line with Some j => key_eqb j k | None => false end.

(** The lines before the next header line. *)
Fixpoint before_header (ls : list jstr) : list jstr :=
  match ls with
  | [] => []
  | l :: ls' => match header_of l with None => l :: before_header ls' | Some _ => [] end
  end.

(** The items collected by a list section opened just before [ls]. *)
Definition collected (ls : list jstr) : list jstr :=
  map bullet_item (filter code_bullet (before_header ls)).

(** Shape of the parser state: the current section has a value, an array
    for a list section and a string for a scalar section. *)
Definition wf (st : pstate) : Prop :=
  forall k, currentKey st = Some k ->
    (is_list_key k = true -> exists l, sections st k = Some (SArr l)) /\
    (is_list_key k = false -> exists v, sections st k = Some (SStr v)).

End ParserSpec.

(* ------------------------------------------------------------------ *)
(** ** [sendMessage] *)

Module Dispatch.

(** The argument of [sendMessage]: a string (voice path) or anything
    else, such as the click event passed by the Send button. *)
Inductive arg := ArgString (s : jstr) | ArgOther.

Inductive role := User | Bot.

(** Synchronous effects of a call, in order. *)
Inductive effect :=
| SetInput (s : jstr)
| AppendMessage (r : role) (text : jstr)
| PostChat (symptoms : jstr).

Definition sendMessage (textOverride : arg) (input : jstr) : list effect :=
  let text := match textOverride with ArgString s => s | ArgOther => input end in
  match trim text with
  | [] => []
  | _ => [SetInput []; AppendMessage User text; PostChat text]
  end.

End Dispatch.

(* ------------------------------------------------------------------ *)
(** ** The [POST /transcribe] handler of the server *)

Module Server.

(** What [model.generateContent(...)] followed by [result.response.text()]
    gives: a text, or a thrown error with its [message] ([None] when the
    thrown value has no message). *)
Inductive provider_result := ProvText (t : jstr) | ProvThrow (message : option jstr).

Inductive body := JTranscript (t : jstr) | JError (msg : jstr).

Record response := Resp { status : nat; json : body }.

(** [x || d] for an optional string field. *)
Definition or_default (x : option jstr) (d : jstr) : jstr :=
  match x with Some ((_ :: _) as s) => s | _ => d end.

(** [(mimeType || "audio/webm").split(";")[0].trim()] *)
Definition safeMimeType (mimeType : option jstr) : jstr :=
  trim (hd [] (split_on 59 (or_default mimeType (js "audio/webm")))).

(** The handler: the provider call it makes ([inlineData] mime type and
    data) and the response. The provider is the external service. *)
Definition transcribe (audio mimeType : option jstr)
    (provider : jstr -> jstr -> provider_result)
    : option (jstr * jstr) * response :=
  match audio with
  | None | Some [] => (None, Resp 400 (JError (js "Audio data required")))
  | Some a =>
      let m := safeMimeType mimeType in
      (Some (m, a),
       match provider m a with
       | ProvText t =>
           match trim t with
           | [] => Resp 422 (JError (js "Gemini returned an empty transcript. Audio may be too quiet or silent."))
           | t' => Resp 200 (JTranscript t')
           end
       | ProvThrow msg => Resp 500 (JError (or_default msg (js "Transcription failed")))
       end)
  end.

End Server.

(* ------------------------------------------------------------------ *)
(** ** Voice capture: [startListening], [stopListening], [onstop] *)

Module Voice.

Inductive rec_status := Recording | Inactive.

(** A [MediaRecorder] together with the stream it records; both carry the
    same id. [r_mime] is [mediaRecorder.mimeType], chosen by the browser. *)
Record recorder := mkRec { r_id : nat; r_mime : jstr; r_status : rec_status }.

(** Outcome of [await navigator.mediaDevices.getUserMedia({audio: true})]
    followed by [new MediaRecorder(stream)]. *)
Inductive gum_outcome :=
| GumRejected (permission_denied : bool)
| GumCtorThrows
| GumOk (mime : jstr).

(** How the [fetch] of [/transcribe] settles: a body with [transcript],
    a body without it (with its [error] field), or a thrown error. *)
Inductive transcribe_outcome :=
| TdTranscript (t : jstr)
| TdNoTranscript (error : option jstr)
| TdThrow.

Inductive event :=
| Toggle                         (* click on the mic button *)
| GumResolve (o : gum_outcome)   (* a pending getUserMedia settles *)
| DataAvailable (r : nat) (size : nat)
| FireOnStop (r : nat)           (* the queued stop event of recorder r *)
| RecorderEnded (r : nat)        (* recorder r stops by itself: all tracks
                                    of its stream ended, or a recording error *)
| ReaderLoaded                   (* a FileReader finishes: POST /transcribe *)
| TranscribeDone (o : transcribe_outcome) (* the POST /transcribe settles *)
| Unmount.                       (* teardown of the App component *)

Record vstate := mkV {
  mounted : bool;
  isListening : bool;
  isTranscribing : bool;
  voiceError : option jstr;
  recorderRef : option nat;     (* mediaRecorderRef.current *)
  recorders : list recorder;
  audioChunks : list nat;       (* sizes of audioChunksRef.current *)
  pendingGum : nat;             (* getUserMedia calls not settled *)
  stopQueue : list nat;         (* recorders whose stop event is queued *)
  readers : list jstr;          (* FileReader jobs, with actualMimeType *)
  inflight : nat;               (* POST /transcribe not settled *)
  requests : list jstr;         (* mimeType of each POST /transcribe body *)
  acquired : list nat;          (* streams obtained from getUserMedia *)
  released : list nat;          (* streams whose tracks were stopped *)
  nextId : nat
}.

Definition init : vstate :=
  mkV true false false None None [] [] 0 [] [] 0 [] [] [] 0.

Definition msg_denied : jstr :=
  js "Microphone access denied. Please allow mic in your browser settings.".
Definition msg_device : jstr :=
  js "Could not access microphone. Please check your device.".
Definition msg_no_audio : jstr := js "No audio captured. Please try again.".
Definition msg_failed : jstr := js "Transcription failed. Please type your symptoms.".
Definition msg_not_understood : jstr :=
  js "Couldn't understand audio. Please try again or type.".

Fixpoint find_rec (r : nat) (rs : list recorder) : option recorder :=
  match rs with
  | [] => None
  | x :: rs' => if Nat.eqb (r_id x) r then Some x else find_rec r rs'
  end.

Definition set_inactive (r : nat) (rs : list recorder) : list recorder :=
  map (fun x => if Nat.eqb (r_id x) r then mkRec (r_id x) (r_mime x) Inactive else x) rs.

Fixpoint remove_nat (r : nat) (l : list nat) : list nat :=
  match l with
  | [] => []
  | x :: l' => if Nat.eqb x r then l' else x :: remove_nat r l'
  end.

Definition sum (l : list nat) : nat := fold_right Nat.add 0%nat l.

(** [startListening] up to its [await]. *)
Definition startListening (st : vstate) : vstate :=
  if isListening st || isTranscribing st then st
  else mkV (mounted st) (isListening st) (isTranscribing st) None (recorderRef st)
           (recorders st) [] (S (pendingGum st)) (stopQueue st) (readers st)
           (inflight st) (requests st) (acquired st) (released st) (nextId st).

(** [stopListening]; [mediaRecorder.stop()] on a recording recorder makes
    it inactive and queues its stop event, on an inactive one does nothing. *)
Definition stopListening (st : vstate) : vstate :=
  match recorderRef st with
  | None => st
  | Some r =>
      if negb (isListening st) then st
      else
        let q := match find_rec r (recorders st) with
                 | Some x => match r_status x with
                             | Recording => stopQueue st ++ [r]
                             | Inactive => stopQueue st
                             end
                 | None => stopQueue st
                 end in
        mkV (mounted st) false (isTranscribing st) (voiceError st) (recorderRef st)
            (set_inactive r (recorders st)) (audioChunks st) (pendingGum st) q
            (readers st) (inflight st) (requests st) (acquired st) (released st)
            (nextId st)
  end.

(** [toggleListening]; no handler runs once the component is gone. *)
Definition toggleListening (st : vstate) : vstate :=
  if negb (mounted st) then st
  else if isListening st then stopListening st else startListening st.

(** The rest of [startListening], after [getUserMedia] settles. *)
Definition gum_resolve (o : gum_outcome) (st : vstate) : vstate :=
  let p := Nat.pred (pendingGum st) in
  let id := nextId st in
  match o with
  | GumRejected denied =>
      mkV (mounted st) (isListening st) (isTranscribing st)
          (Some (if denied then msg_denied else msg_device)) (recorderRef st)
          (recorders st) (audioChunks st) p (stopQueue st) (readers st)
          (inflight st) (requests st) (acquired st) (released st) (nextId st)
  | GumCtorThrows =>
      mkV (mounted st) (isListening st) (isTranscribing st) (Some msg_device)
          (recorderRef st) (recorders st) (audioChunks st) p (stopQueue st)
          (readers st) (inflight st) (requests st) (acquired st ++ [id])
          (released st) (S id)
  | GumOk mime =>
      mkV (mounted st) true (isTranscribing st) (voiceError st) (Some id)
          (recorders st ++ [mkRec id mime Recording]) (audioChunks st) p
          (stopQueue st) (readers st) (inflight st) (requests st)
          (acquired st ++ [id]) (released st) (S id)
  end.

(** [mediaRecorder.mimeType || "audio/webm"] *)
Definition actualMimeType (x : recorder) : jstr :=
  match r_mime x with [] => js "audio/webm" | m => m end.

(** [mediaRecorder.onstop] of recorder [r]. *)
Definition onstop (r : nat) (st : vstate) : vstate :=
  let mime := match find_rec r (recorders st) with
              | Some x => actualMimeType x
              | None => js "audio/webm"
              end in
  let q := remove_nat r (stopQueue st) in
  let rel := released st ++ [r] in
  if (sum (audioChunks st) <? 500)%nat then
    mkV (mounted st) (isListening st) (isTranscribing st) (Some msg_no_audio)
        (recorderRef st) (recorders st) [] (pendingGum st) q (readers st)
        (inflight st) (requests st) (acquired st) rel (nextId st)
  else
    mkV (mounted st) (isListening st) true (voiceError st)
        (recorderRef st) (recorders st) [] (pendingGum st) q
        (readers st ++ [mime]) (inflight st) (requests st) (acquired st) rel
        (nextId st).

Definition step (st : vstate) (e : event) : vstate :=
  match e with
  | Toggle => toggleListening st
  | GumResolve o => if (pendingGum st =? 0)%nat then st else gum_resolve o st
  | DataAvailable r n =>
      match find_rec r (recorders st) with
      | Some _ =>
          if (0 <? n)%nat then
            mkV (mounted st) (isListening st) (isTranscribing st) (voiceError st)
                (recorderRef st) (recorders st) (audioChunks st ++ [n])
                (pendingGum st) (stopQueue st) (readers st) (inflight st)
                (requests st) (acquired st) (released st) (nextId st)
          else st
      | None => st
      end
  | FireOnStop r => if existsb (Nat.eqb r) (stopQueue st) then onstop r st else st
  | RecorderEnded r =>
      (* a recording recorder becomes inactive and queues its stop event;
         no handler of the component runs, so [isListening] is unchanged *)
      match find_rec r (recorders st) with
      | Some x =>
          match r_status x with
          | Recording =>
              mkV (mounted st) (isListening st) (isTranscribing st) (voiceError st)
                  (recorderRef st) (set_inactive r (recorders st)) (audioChunks st)
                  (pendingGum st) (stopQueue st ++ [r]) (readers st) (inflight st)
                  (requests st) (acquired st) (released st) (nextId st)
          | Inactive => st
          end
      | None => st
      end
  | ReaderLoaded =>
      match readers st with
      | [] => st
      | m :: rs =>
          mkV (mounted st) (isListening st) (isTranscribing st) (voiceError st)
              (recorderRef st) (recorders st) (audioChunks st) (pendingGum st)
              (stopQueue st) rs (S (inflight st)) (requests st ++ [m])
              (acquired st) (released st) (nextId st)
      end
  | TranscribeDone o =>
      if (inflight st =? 0)%nat then st
      else
        (* with a transcript, [sendMessage(data.transcript)] follows *)
        mkV (mounted st) (isListening st) false
            (match o with
             | TdTranscript (_ :: _) => voiceError st
             | TdTranscript [] => Some msg_not_understood
             | TdNoTranscript e => Some (Server.or_default e msg_not_understood)
             | TdThrow => Some msg_failed
             end)
            (recorderRef st) (recorders st) (audioChunks st) (pendingGum st)
            (stopQueue st) (readers st) (Nat.pred (inflight st)) (requests st)
            (acquired st) (released st) (nextId st)
  | Unmount =>
      mkV false (isListening st) (isTranscribing st) (voiceError st)
          (recorderRef st) (recorders st) (audioChunks st) (pendingGum st)
          (stopQueue st) (readers st) (inflight st) (requests st)
          (acquired st) (released st) (nextId st)
  end.

Definition run (st : vstate) (evs : list event) : vstate := fold_left step evs st.

(** Events that come from the device or the browser rather than from the
    application: a recorder stopping by itself. *)
Definition self_stop (e : event) : bool :=
  match e with RecorderEnded _ => true | _ => false end.

End Voice.

(* ------------------------------------------------------------------ *)
(** ** The [POST /chat] handler of the server *)

Module ChatServer.
Import Server.

Definition dq : jstr := [34].

Fixpoint join_lines (ls : list jstr) : jstr :=
  match ls with
  | [] => []
  | [l] => l
  | l :: ls' => l ++ 10 :: join_lines ls'
  end.

(** The template literal of the prompt; [${symptoms}] is spliced in as is. *)
Definition prompt (symptoms : jstr) : jstr :=
  join_lines
    [js "You are a medical triage bot. You MUST always reply in exactly this format, with each section present in a a very concise and structured manner:";
     js "    Severity: (one word: Low, Moderate, High)";
     js "    Immediate Need for Attention: (Yes/No)";
     js "    See a Doctor If: (max 2 short bullet points, each starting with " ++ dq ++ js "- " ++ dq ++ js ")";
     js "    Next Steps: (max 3 bullet points, each starting with " ++ dq ++ js "- " ++ dq ++ js ")";
     js "    Possible Conditions: (max 3 bullet points, each starting with " ++ dq ++ js "- " ++ dq ++ js ")";
     js "    Disclaimer: (one short sentence)";
     js "    Symptoms: " ++ dq ++ symptoms ++ dq].

Inductive chat_body := JReply (reply : jstr) | JChatError (error : jstr).

(** The handler: the prompt it sends to the provider, and the status and
    body of the response. *)
Definition chat (symptoms : option jstr) (provider : jstr -> provider_result)
    : option jstr * (nat * chat_body) :=
  match symptoms with
  | None | Some [] => (None, (400%nat, JChatError (js "Symptoms are required")))
  | Some s =>
      let p := prompt s in
      (Some p,
       match provider p with
       | ProvText t => (200%nat, JReply t)
       | ProvThrow _ => (500%nat, JChatError (js "Failed to get response from Gemini"))
       end)
  end.

End ChatServer.

(* ------------------------------------------------------------------ *)
(** ** [sendMessage] with the message log, and the rendering of messages *)

Module DispatchRun.
Import Dispatch.

Record message := Msg { m_role : role; m_text : jstr }.

(** How [fetch(".../chat")] then [res.json()] settle: a thrown error (no
    connection, or a body that is not JSON), or the body with its [reply]
    field. *)
Inductive chat_outcome := ChatThrow | ChatJson (reply : option jstr).

(** The text of the bot message appended when the request settles. *)
Definition bot_text (o : chat_outcome) : jstr :=
  match o with
  | ChatThrow => js "Error connecting to server."
  | ChatJson r => Server.or_default r (js "No reply from server.")
  end.

(** The synchronous part of [sendMessage]: the new input field, the new
    log, and the symptoms posted (if any). *)
Definition send_start (textOverride : arg) (input : jstr) (messages : list message)
    : jstr * list message * option jstr :=
  let text := match textOverride with ArgString s => s | ArgOther => input end in
  match trim text with
  | [] => (input, messages, None)
  | _ => ([], messages ++ [Msg User text], Some text)
  end.

(** [setMessages((m) => [...m, {role: "bot", ...}])] when the request
    settles: applied to the log as it is at that time. *)
Definition send_settle (o : chat_outcome) (messages : list message) : list message :=
  messages ++ [Msg Bot (bot_text o)].

(** The client's reading of a [/chat] response: [res.json()] gives the body
    whatever the status. *)
Definition chat_outcome_of (r : nat * ChatServer.chat_body) : chat_outcome :=
  match snd r with
  | ChatServer.JReply t => ChatJson (Some t)
  | ChatServer.JChatError _ => ChatJson None
  end.

End DispatchRun.

Module Render.
Import Parser.

(** Whether the JSX of [formatBotReply] shows section [k]:
    [sections[k] && ...] for Severity, Immediate Need and Disclaimer,
    [sections[k]?.length > 0] for the three lists. *)
Definition displayed (k : key) (v : option sval) : bool :=
  if is_list_key k then
    match v with
    | Some (SArr (_ :: _)) | Some (SStr (_ :: _)) => true
    | _ => false
    end
  else
    match v with
    | Some (SStr (_ :: _)) | Some (SArr _) => true
    | _ => false
    end.

(** The sections shown, in the order of the JSX. *)
Definition displayed_keys (st : pstate) : list key :=
  filter (fun k => displayed k (sections st k)) matcher_keys.

End Render.

(** Predicates on parser states used by further properties. *)
Module ParserExtraSpec.
Import Parser.

(** Every value held in [sections] is trimmed. *)
Definition values_trimmed (st : pstate) : Prop :=
  forall k, match sections st k with
            | Some (SStr v) => trim v = v
            | Some (SArr l) => Forall (fun x => trim x = x) l
            | None => True
            end.

(** Upper-casing of the ASCII letters a-z only; other code units are
    kept. *)
Definition to_upper_ascii (s : jstr) : jstr := map canon s.

End ParserExtraSpec.

(** The client's reading of a [/transcribe] response: [res.json()] gives
    the body whatever the status. *)
Module Pipeline.

Definition transcribe_outcome_of (r : Server.response) : Voice.transcribe_outcome :=
  match Server.json r with
  | Server.JTranscript t => Voice.TdTranscript t
  | Server.JError m => Voice.TdNoTranscript (Some m)
  end.

(** A recording in ["audio/ogg"] of 600 bytes, stopped by a second click. *)
Definition ogg_trace : list Voice.event :=
  [Voice.Toggle; Voice.GumResolve (Voice.GumOk (js "audio/ogg")); Voice.DataAvailable 0 600;
   Voice.Toggle].

End Pipeline.

(** Invariant of the voice capture state used for device release. *)
Module VoiceSpec.
Import Voice.

Record Inv (st : vstate) : Prop := {
  inv_rel_nodup : NoDup (released st);
  inv_rel_acq : forall r, In r (released st) -> In r (acquired st);
  inv_acq_fresh : forall r, In r (acquired st) -> (r < nextId st)%nat;
  inv_rec_acq : forall x, In x (recorders st) -> In (r_id x) (acquired st);
  inv_queue : forall r, In r (stopQueue st) -> In r (acquired st) /\ ~ In r (released st);
  inv_queue_nodup : NoDup (stopQueue st);
  inv_recording : forall x, In x (recorders st) -> r_status x = Recording ->
    ~ In (r_id x) (stopQueue st) /\ ~ In (r_id x) (released st)
}.

End VoiceSpec.

(** Every recorder whose stop event is queued, and every recorder whose
    stream was released, is known and inactive: [mediaRecorder.stop()]
    came first. *)
Module VoiceExtraSpec.
Import Voice.

Definition stopped_before_release (st : vstate) : Prop :=
  forall r, In r (stopQueue st) \/ In r (released st) ->
    exists x, find_rec r (recorders st) = Some x /\ r_status x = Inactive.

End VoiceExtraSpec.

(* ================================================================== *)
(** * Properties of the reply parser *)

Module ParserFacts.
Import Parser ParserSpec.

Lemma key_eqb_refl k : key_eqb k k = true.
Proof. unfold key_eqb; destruct (key_eq_dec k k); congruence. Qed.

Lemma key_eqb_neq j k : j <> k -> key_eqb j k = false.
Proof. unfold key_eqb; destruct (key_eq_dec j k); congruence. Qed.

Lemma upd_same f k v : upd f k v k = Some v.
Proof. unfold upd; now rewrite key_eqb_refl. Qed.

Lemma upd_other f j k v : j <> k -> upd f j v k = f k.
Proof. intro H; unfold upd; now rewrite key_eqb_neq. Qed.

Lemma parse_lines_cons st l ls :
  parse_lines st (l :: ls) = parse_lines (process_line st l) ls.
Proof. reflexivity. Qed.

(** A line that is no header leaves the state alone when the current
    section is not an array. *)
Lemma process_line_plain st line :
  header_of line = None -> current_is_array st = false ->
  process_line st line = st.
Proof.
  intros H1 H2. unfold process_line. rewrite H1, H2, !andb_false_r.
  reflexivity.
Qed.

Lemma push_other st x k :
  currentKey st <> Some k ->
  sections (push st x) k = sections st k /\ currentKey (push st x) = currentKey st.
Proof.
  intro Hk. unfold push.
  destruct (currentKey st) as [c|] eqn:Ec; [|auto].
  destruct (sections st c) as [[v|l]|]; simpl; auto.
  split; [apply upd_other; congruence | reflexivity].
Qed.

(** A line that is no header of [k], read while [k] is not current,
    neither changes [sections[k]] nor makes [k] current. *)
Lemma process_line_other st line k :
  header_of line <> Some k -> currentKey st <> Some k ->
  sections (process_line st line) k = sections st k /\
  currentKey (process_line st line) <> Some k.
Proof.
  intros Hl Hk. unfold process_line.
  destruct (header_of line) as [j|] eqn:E.
  - simpl. split; [apply upd_other|]; congruence.
  - destruct (starts_with (js "-") line && current_is_array st).
    + destruct (push_other st (trim (tl line)) k Hk) as [-> ->]; auto.
    + destruct (numbered_re line && current_is_array st); [|auto].
      destruct (push_other st (trim (strip_marker line)) k Hk) as [-> ->]; auto.
Qed.

Lemma parse_lines_other rest : forall st k,
  currentKey st <> Some k ->
  Forall (fun l => header_of l <> Some k) rest ->
  sections (parse_lines st rest) k = sections st k.
Proof.
  induction rest as [|l rest IH]; intros st k Hk Hall; [reflexivity|].
  inversion Hall; subst. rewrite parse_lines_cons.
  destruct (process_line_other st l k) as [E1 E2]; auto.
  rewrite IH; auto.
Qed.

(** A section whose value is not an array changes only at its header. *)
Lemma process_line_not_array st line k :
  header_of line <> Some k ->
  (forall l, sections st k <> Some (SArr l)) ->
  sections (process_line st line) k = sections st k.
Proof.
  intros Hl Hs.
  destruct (currentKey st) as [c|] eqn:Ec.
  - destruct (key_eq_dec c k) as [->|Hck].
    + destruct (header_of line) as [j|] eqn:E.
      * unfold process_line; rewrite E; simpl. apply upd_other; congruence.
      * rewrite process_line_plain; auto.
        unfold current_is_array; rewrite Ec.
        destruct (sections st k) as [[v|l]|] eqn:Es; auto.
        exfalso; apply (Hs l); reflexivity.
    + apply process_line_other; [auto|congruence].
  - apply process_line_other; [auto|congruence].
Qed.

Lemma parse_lines_not_array rest : forall st k,
  (forall l, sections st k <> Some (SArr l)) ->
  Forall (fun l => header_of l <> Some k) rest ->
  sections (parse_lines st rest) k = sections st k.
Proof.
  induction rest as [|l rest IH]; intros st k Hs Hall; [reflexivity|].
  inversion Hall; subst. rewrite parse_lines_cons.
  assert (E := process_line_not_array st l k H1 Hs).
  rewrite IH; auto. now rewrite E.
Qed.

Lemma collected_cons_plain l rest :
  header_of l = None ->
  collected (l :: rest) =
  (if code_bullet l then [bullet_item l] else []) ++ collected rest.
Proof.
  intro E. unfold collected. cbn [before_header]. rewrite E.
  cbn [filter]. destruct (code_bullet l); reflexivity.
Qed.

Lemma process_line_bullet st l :
  header_of l = None -> current_is_array st = true ->
  process_line st l = if code_bullet l then push st (bullet_item l) else st.
Proof.
  intros E Ha. unfold process_line, code_bullet, bullet_item.
  rewrite E, Ha, !andb_true_r.
  destruct (starts_with (js "-") l); [reflexivity|].
  destruct (numbered_re l); reflexivity.
Qed.

(** Under an open list section [k], the lines up to the next header add
    their bullet items to [k], in order. *)
Lemma parse_lines_list rest : forall st k acc,
  currentKey st = Some k ->
  sections st k = Some (SArr acc) ->
  Forall (fun l => header_of l <> Some k) rest ->
  sections (parse_lines st rest) k = Some (SArr (acc ++ collected rest)).
Proof.
  induction rest as [|l rest IH]; intros st k acc Hc Hs Hall.
  - simpl. now rewrite app_nil_r.
  - inversion Hall; subst. rewrite parse_lines_cons.
    destruct (header_of l) as [j|] eqn:E.
    + assert (Hjk : j <> k) by congruence.
      assert (Hcol : collected (l :: rest) = [])
        by (unfold collected; cbn [before_header]; now rewrite E).
      rewrite Hcol, app_nil_r.
      unfold process_line. rewrite E. rewrite parse_lines_other; simpl.
      * rewrite upd_other by exact Hjk. exact Hs.
      * congruence.
      * exact H2.
    + assert (Ha : current_is_array st = true)
        by (unfold current_is_array; now rewrite Hc, Hs).
      rewrite (process_line_bullet st l E Ha), (collected_cons_plain l rest E).
      destruct (code_bullet l).
      * assert (Hp : push st (bullet_item l) =
                     mkP (Some k) (upd (sections st) k (SArr (acc ++ [bullet_item l]))))
          by (unfold push; now rewrite Hc, Hs).
        rewrite Hp, (IH _ k (acc ++ [bullet_item l])); auto.
        -- now rewrite <- app_assoc.
        -- apply upd_same.
      * apply IH; auto.
Qed.

Lemma push_wf st x : wf st -> wf (push st x).
Proof.
  intro Hwf. unfold push.
  destruct (currentKey st) as [c|] eqn:Ec; [|exact Hwf].
  destruct (sections st c) as [[v|l]|] eqn:Es; try exact Hwf.
  intros k Hk. simpl in Hk. injection Hk as <-. simpl. rewrite upd_same.
  destruct (Hwf c Ec) as [_ H2]. split; intro H; [eauto|].
  destruct (H2 H) as [v Hv]. congruence.
Qed.

Lemma process_line_wf st l : wf st -> wf (process_line st l).
Proof.
  intro Hwf. unfold process_line.
  destruct (header_of l) as [j|] eqn:E.
  - intros k Hk. simpl in Hk. injection Hk as <-. simpl. rewrite upd_same.
    destruct (is_list_key j); split; intro H; eauto; discriminate.
  - destruct (starts_with (js "-") l && current_is_array st); [now apply push_wf|].
    destruct (numbered_re l && current_is_array st); [now apply push_wf|exact Hwf].
Qed.

Lemma parse_lines_wf ls : forall st, wf st -> wf (parse_lines st ls).
Proof.
  induction ls as [|l ls IH]; intros st Hwf; [exact Hwf|].
  rewrite parse_lines_cons. apply IH, process_line_wf, Hwf.
Qed.

Lemma init_wf : wf init.
Proof. intros k Hk. discriminate. Qed.

Lemma parse_lines_init_plain pre :
  Forall (fun l => header_of l = None) pre -> parse_lines init pre = init.
Proof.
  induction pre as [|l pre IH]; intro Hall; [reflexivity|].
  inversion Hall; subst. rewrite parse_lines_cons.
  rewrite process_line_plain by auto. now apply IH.
Qed.

(** A run of digits followed by ['.'] is also the run of marker characters
    [[-•*0-9]] the numbered-item expression reads. *)
Lemma marker_run_digits l :
  starts_with (js ".") (skipn (List.length (take_while is_digit l)) l) = true ->
  take_while in_marker_class l = take_while is_digit l.
Proof.
  induction l as [|c l IH]; intro H; [reflexivity|].
  cbn [take_while] in *.
  destruct (is_digit c) eqn:Ed.
  - assert (Hm : in_marker_class c = true)
      by (unfold in_marker_class; rewrite Ed; now rewrite !orb_true_r).
    rewrite Hm. f_equal. apply IH. exact H.
  - cbn in H. rewrite andb_true_r in H. apply Z.eqb_eq in H. subst c.
    reflexivity.
Qed.

Lemma digits_dot_numbered l : digits_dot l = true -> numbered_re l = true.
Proof.
  unfold digits_dot, numbered_re. intro H.
  apply andb_prop in H as [H1 H2].
  rewrite (marker_run_digits l H2). now rewrite H1, H2.
Qed.

End ParserFacts.

(** ** Claims about the reply parser *)

Module ParserClaims.
Import Parser ParserSpec ParserFacts.
Open Scope string_scope.
Open Scope list_scope.

Lemma collected_all_bullets ls :
  Forall (fun l => header_of l = None /\
                   (starts_with (js "-") l = true \/ digits_dot l = true)) ls ->
  collected ls = map bullet_item ls.
Proof.
  induction ls as [|l ls IH]; intro Hall; [reflexivity|].
  inversion Hall as [|? ? [E Hb] Hrest]; subst.
  rewrite (collected_cons_plain l ls E).
  assert (Hc : code_bullet l = true).
  { unfold code_bullet. destruct Hb as [Hb|Hb]; [now rewrite Hb|].
    rewrite (digits_dot_numbered l Hb). apply orb_true_r. }
  rewrite Hc. simpl. f_equal. now apply IH.
Qed.

(** C3 (amended): under an open list section [k], a run of lines that
    match no header pattern and begin with ['-'] or with digits followed
    by ['.'] is appended to [k] in input order, each line with its marker
    stripped ([bullet_item]: one ['-'] removed, or the marker run of
    [[-•*0-9.]] and the following whitespace removed, then trimmed). *)
Theorem C3_bullets_appended_in_order : forall st k acc ls,
  currentKey st = Some k ->
  sections st k = Some (SArr acc) ->
  Forall (fun l => header_of l = None /\
                   (starts_with (js "-") l = true \/ digits_dot l = true)) ls ->
  sections (parse_lines st ls) k = Some (SArr (acc ++ map bullet_item ls)).
Proof.
  intros st k acc ls Hc Hs Hall.
  rewrite <- (collected_all_bullets ls Hall).
  apply parse_lines_list; auto.
  eapply Forall_impl; [|exact Hall]. intros l [E _]. congruence.
Qed.

Lemma C3_witness :
  (currentKey (formatBotReply (js "Next Steps:")) = Some NextSteps /\
   sections (formatBotReply (js "Next Steps:")) NextSteps = Some (SArr []) /\
   Forall (fun l => header_of l = None /\
                    (starts_with (js "-") l = true \/ digits_dot l = true))
          [js "- rest"; js "2. drink water"]) /\
  sections (parse_lines (formatBotReply (js "Next Steps:")) [js "- rest"; js "2. drink water"])
           NextSteps = Some (SArr ([] ++ map bullet_item [js "- rest"; js "2. drink water"])).
Proof.
  assert (H1 : currentKey (formatBotReply (js "Next Steps:")) = Some NextSteps)
    by reflexivity.
  assert (H2 : sections (formatBotReply (js "Next Steps:")) NextSteps = Some (SArr []))
    by reflexivity.
  assert (H3 : Forall (fun l => header_of l = None /\
                        (starts_with (js "-") l = true \/ digits_dot l = true))
                      [js "- rest"; js "2. drink water"]).
  { repeat apply Forall_cons; try apply Forall_nil;
      (split; [reflexivity|]); [left|right]; reflexivity. }
  split; [auto|].
  exact (C3_bullets_appended_in_order _ _ _ _ H1 H2 H3).
Defined.

(** C3 fails as stated: a bullet line under [Next Steps] that matches a
    header pattern opens that section instead of being appended. *)
Lemma C3_counterexample :
  sections (formatBotReply (js_lines ["Next Steps:"; "- See a doctor if it worsens"]))
           NextSteps = Some (SArr []) /\
  sections (formatBotReply (js_lines ["Next Steps:"; "- See a doctor if it worsens"]))
           NextSteps <> Some (SArr [js "See a doctor if it worsens"]).
Proof.
  split; [reflexivity|]. vm_compute. intro H. discriminate H.
Qed.

(** The numbered-item expression needs a ['.'] after the marker run: a line
    ["• Rest"] (U+2022) under [Next Steps] is not appended. *)
Lemma bullet_without_dot_dropped :
  sections (formatBotReply (js "Next Steps:" ++ 10 :: 8226 :: js " Rest")%list)
           NextSteps = Some (SArr []).
Proof. reflexivity. Qed.










(** C7: the value of section [k] after its last header [L] depends only on
    [L] and the lines after it: the bullet items up to the next header for
    a list section, the remainder of [L] for a scalar section. *)
Theorem C7_last_header_wins : forall st L rest k,
  header_of L = Some k ->
  Forall (fun l => header_of l <> Some k) rest ->
  sections (parse_lines st (L :: rest)) k =
  Some (if is_list_key k then SArr (collected rest)
        else SStr (trim (replace_first (seq_pat k) L))).
Proof.
  intros st L rest k HL Hall. rewrite parse_lines_cons.
  unfold process_line. rewrite HL.
  destruct (is_list_key k) eqn:Ek.
  - apply (parse_lines_list rest _ k []); auto. apply upd_same.
  - rewrite parse_lines_not_array; auto.
    + apply upd_same.
    + intro l. simpl. rewrite upd_same. discriminate.
Qed.

Lemma C7_witness :
  (header_of (js "Next Steps:") = Some NextSteps /\
   Forall (fun l => header_of l <> Some NextSteps) [js "- b"]) /\
  sections (parse_lines (formatBotReply (js_lines ["Next Steps:"; "- a"]))
                        [js "Next Steps:"; js "- b"]) NextSteps =
  Some (if is_list_key NextSteps then SArr (collected [js "- b"])
        else SStr (trim (replace_first (seq_pat NextSteps) (js "Next Steps:")))).
Proof.
  assert (H1 : header_of (js "Next Steps:") = Some NextSteps) by reflexivity.
  assert (H2 : Forall (fun l => header_of l <> Some NextSteps) [js "- b"])
    by (apply Forall_cons; [vm_compute; discriminate|apply Forall_nil]).
  split; [auto|].
  exact (C7_last_header_wins _ _ _ _ H1 H2).
Defined.

(** C9: the See-a-Doctor header is [/(see|seek).*(doctor|medical)/i], with
    no colon: a line that does not match the two earlier matchers and
    matches it opens See a Doctor If as an empty list; the bullet
    ["- Seek medical help"] under Next Steps does so. *)
Theorem C9_see_doctor_pattern :
  (forall st line,
      key_test Severity line = false ->
      key_test ImmediateNeed line = false ->
      key_test SeeDoctor line = true ->
      process_line st line = mkP (Some SeeDoctor) (upd (sections st) SeeDoctor (SArr []))) /\
  (currentKey (formatBotReply (js_lines ["Next Steps:"; "- Seek medical help"])) = Some SeeDoctor /\
   sections (formatBotReply (js_lines ["Next Steps:"; "- Seek medical help"])) SeeDoctor =
     Some (SArr []) /\
   sections (formatBotReply (js_lines ["Next Steps:"; "- Seek medical help"])) NextSteps =
     Some (SArr [])).
Proof.
  split.
  - intros st line H1 H2 H3. unfold process_line, header_of, matcher_keys.
    cbn [first_match]. rewrite H1, H2, H3. reflexivity.
  - repeat split; reflexivity.
Qed.

Lemma C9_witness :
  (key_test Severity (js "- Seek medical help") = false /\
   key_test ImmediateNeed (js "- Seek medical help") = false /\
   key_test SeeDoctor (js "- Seek medical help") = true) /\
  process_line (formatBotReply (js "Next Steps:")) (js "- Seek medical help") =
  mkP (Some SeeDoctor)
      (upd (sections (formatBotReply (js "Next Steps:"))) SeeDoctor (SArr [])).
Proof.
  assert (H1 : key_test Severity (js "- Seek medical help") = false) by reflexivity.
  assert (H2 : key_test ImmediateNeed (js "- Seek medical help") = false) by reflexivity.
  assert (H3 : key_test SeeDoctor (js "- Seek medical help") = true) by reflexivity.
  split; [auto|].
  exact (proj1 C9_see_doctor_pattern _ _ H1 H2 H3).
Defined.

(** C10 (amended): a line that matches no header pattern, read while no
    section is open or a scalar section is current, leaves the state
    unchanged: it is appended to no list and the scalar value stays. *)
Theorem C10_line_dropped_outside_list : forall pre line,
  header_of line = None ->
  (currentKey (parse_lines init pre) = None \/
   exists k, currentKey (parse_lines init pre) = Some k /\ is_list_key k = false) ->
  process_line (parse_lines init pre) line = parse_lines init pre.
Proof.
  intros pre line E Hc. apply process_line_plain; [exact E|].
  assert (Hwf := parse_lines_wf pre init init_wf).
  unfold current_is_array.
  destruct Hc as [-> | [k [Hk Hl]]]; [reflexivity|].
  rewrite Hk. destruct (Hwf k Hk) as [_ H2].
  destruct (H2 Hl) as [v ->]. reflexivity.
Qed.

Lemma C10_witness :
  (header_of (js "- mild") = None /\
   (currentKey (parse_lines init [js "Severity: High"]) = None \/
    exists k, currentKey (parse_lines init [js "Severity: High"]) = Some k /\
              is_list_key k = false)) /\
  process_line (parse_lines init [js "Severity: High"]) (js "- mild") =
  parse_lines init [js "Severity: High"].
Proof.
  assert (H1 : header_of (js "- mild") = None) by reflexivity.
  assert (H2 : currentKey (parse_lines init [js "Severity: High"]) = None \/
               exists k, currentKey (parse_lines init [js "Severity: High"]) = Some k /\
                         is_list_key k = false)
    by (right; exists Severity; split; reflexivity).
  split; [auto|].
  exact (C10_line_dropped_outside_list _ _ H1 H2).
Defined.

(** C10 fails as stated: the bullet line ["- Severity: Low"] under the
    scalar section Severity matches the Severity header and replaces the
    captured value ["High"] with ["-  Low"]. *)
Lemma C10_counterexample :
  sections (formatBotReply (js_lines ["Severity: High"; "- Severity: Low"])) Severity =
    Some (SStr (js "-  Low")) /\
  sections (formatBotReply (js_lines ["Severity: High"; "- Severity: Low"])) Severity <>
    Some (SStr (js "High")).
Proof.
  split; [reflexivity|]. vm_compute. intro H. discriminate H.
Qed.

End ParserClaims.

(* ================================================================== *)
(** * Properties of voice capture *)

Module VoiceFacts.
Import Voice VoiceSpec.

Lemma find_rec_in r rs x : find_rec r rs = Some x -> In x rs /\ r_id x = r.
Proof.
  induction rs as [|y rs IH]; simpl; [discriminate|].
  destruct (Nat.eqb (r_id y) r) eqn:E.
  - intro H. injection H as <-. apply Nat.eqb_eq in E. auto.
  - intro H. destruct (IH H). auto.
Qed.

Lemma find_rec_none r rs : (forall x, In x rs -> r_id x <> r) -> find_rec r rs = None.
Proof.
  induction rs as [|y rs IH]; intro H; simpl; [reflexivity|].
  destruct (Nat.eqb (r_id y) r) eqn:E.
  - apply Nat.eqb_eq in E. exfalso. apply (H y); [left; reflexivity|exact E].
  - apply IH. intros x Hx. apply H. right; exact Hx.
Qed.

Lemma find_rec_app r rs y :
  find_rec r (rs ++ [y]) =
  match find_rec r rs with
  | Some x => Some x
  | None => if Nat.eqb (r_id y) r then Some y else None
  end.
Proof.
  induction rs as [|z rs IH]; simpl; [now destruct (Nat.eqb (r_id y) r)|].
  destruct (Nat.eqb (r_id z) r); auto.
Qed.

Lemma set_inactive_in r rs y :
  In y (set_inactive r rs) ->
  exists y0, In y0 rs /\ r_id y0 = r_id y /\
             (r_status y = Recording -> r_status y0 = Recording /\ r_id y <> r).
Proof.
  unfold set_inactive. rewrite in_map_iff. intros [y0 [Hy Hin]].
  exists y0. destruct (Nat.eqb (r_id y0) r) eqn:E; subst y; simpl.
  - split; [exact Hin|split; [reflexivity|]]. intro H; discriminate H.
  - split; [exact Hin|split; [reflexivity|]]. intro H. split; [exact H|].
    apply Nat.eqb_neq in E. exact E.
Qed.

Lemma remove_nat_in r y l : In y (remove_nat r l) -> In y l.
Proof.
  induction l as [|x l IH]; simpl; [auto|].
  destruct (Nat.eqb x r); simpl; intuition.
Qed.

Lemma remove_nat_nodup r l : NoDup l -> NoDup (remove_nat r l) /\ ~ In r (remove_nat r l).
Proof.
  induction l as [|x l IH]; intro H; simpl; [split; [constructor|auto]|].
  inversion H as [|? ? Hx Hl]; subst.
  destruct (Nat.eqb x r) eqn:E.
  - apply Nat.eqb_eq in E; subst. auto.
  - destruct (IH Hl) as [H1 H2]. split.
    + constructor; auto. intro Hin. apply Hx, (remove_nat_in r), Hin.
    + intros [Hxr|Hin]; [apply Nat.eqb_neq in E; auto|auto].
Qed.

Lemma NoDup_snoc (l : list nat) a : NoDup l -> ~ In a l -> NoDup (l ++ [a]).
Proof.
  intros H1 H2. apply NoDup_app; auto.
  - repeat constructor. auto.
  - intros b Hb [<-|[]]. auto.
Qed.

(** Events that touch none of the fields of the invariant preserve it. *)
Lemma inv_frame st st' :
  Inv st ->
  released st' = released st -> acquired st' = acquired st ->
  nextId st' = nextId st -> recorders st' = recorders st ->
  stopQueue st' = stopQueue st ->
  Inv st'.
Proof.
  intros [] E1 E2 E3 E4 E5.
  constructor; rewrite ?E1, ?E2, ?E3, ?E4, ?E5; auto.
Qed.

Ltac frame := eapply inv_frame; [eassumption| reflexivity ..].

Lemma stop_inv st : Inv st -> Inv (stopListening st).
Proof.
  intro HI. unfold stopListening.
  destruct (recorderRef st) as [r|] eqn:Eref; [|exact HI].
  destruct (negb (isListening st)); [exact HI|].
  set (q := match find_rec r (recorders st) with
            | Some x => match r_status x with
                        | Recording => stopQueue st ++ [r]
                        | Inactive => stopQueue st
                        end
            | None => stopQueue st
            end).
  assert (Hq : q = stopQueue st \/
               (q = stopQueue st ++ [r] /\ In r (acquired st) /\
                ~ In r (stopQueue st) /\ ~ In r (released st))).
  { unfold q. destruct (find_rec r (recorders st)) as [x|] eqn:Ef; [|auto].
    destruct (r_status x) eqn:Es; [right|auto].
    destruct (find_rec_in _ _ _ Ef) as [Hin <-].
    destruct (inv_recording _ HI x Hin Es).
    repeat split; auto. apply (inv_rec_acq _ HI), Hin. }
  destruct HI as [I1 I2 I3 I4 I5 I6 I7].
  constructor; simpl; auto.
  - intros y Hy. destruct (set_inactive_in _ _ _ Hy) as [y0 [Hy0 [<- _]]]. auto.
  - intros r' Hr'. destruct Hq as [->|[-> [Ha [Hnq Hnr]]]]; auto.
    apply in_app_or in Hr' as [Hr'|[<-|[]]]; auto.
  - destruct Hq as [->|[-> [Ha [Hnq Hnr]]]]; auto. now apply NoDup_snoc.
  - intros y Hy Hs. destruct (set_inactive_in _ _ _ Hy) as [y0 [Hy0 [Hid Hrec]]].
    destruct (Hrec Hs) as [Hs0 Hne]. rewrite <- Hid.
    destruct (I7 y0 Hy0 Hs0) as [N1 N2]. split; [|exact N2].
    destruct Hq as [->|[-> _]]; auto.
    rewrite Hid. intro Hin. apply in_app_or in Hin as [Hin|[Heq|[]]].
    + apply N1. now rewrite Hid.
    + auto.
Qed.

Lemma start_inv st : Inv st -> Inv (startListening st).
Proof.
  intro HI. unfold startListening.
  destruct (isListening st || isTranscribing st); [exact HI|frame].
Qed.

Lemma gum_inv o st : Inv st -> Inv (gum_resolve o st).
Proof.
  intro HI. destruct o as [d| |mime]; unfold gum_resolve.
  - frame.
  - destruct HI as [I1 I2 I3 I4 I5 I6 I7].
    constructor; simpl; auto.
    + intros r Hr. apply in_or_app. left. auto.
    + intros r Hr. apply in_app_or in Hr as [Hr|[<-|[]]]; [apply I3 in Hr|]; lia.
    + intros x Hx. apply in_or_app. left. auto.
    + intros r Hr. destruct (I5 r Hr). split; [apply in_or_app; left|]; auto.
  - destruct HI as [I1 I2 I3 I4 I5 I6 I7].
    assert (Hfresh : forall x, In x (recorders st) -> r_id x <> nextId st).
    { intros x Hx E. apply I4, I3 in Hx. lia. }
    constructor; simpl; auto.
    + intros r Hr. apply in_or_app. left. auto.
    + intros r Hr. apply in_app_or in Hr as [Hr|[<-|[]]]; [apply I3 in Hr|]; lia.
    + intros x Hx. apply in_app_or in Hx as [Hx|[<-|[]]].
      * apply in_or_app. left. auto.
      * apply in_or_app. right. left. reflexivity.
    + intros r Hr. destruct (I5 r Hr). split; [apply in_or_app; left|]; auto.
    + intros x Hx Hs. apply in_app_or in Hx as [Hx|[<-|[]]]; [auto|].
      simpl. split; intro Hin.
      * destruct (I5 _ Hin) as [Ha _]. apply I3 in Ha. lia.
      * apply I2, I3 in Hin. lia.
Qed.

Lemma onstop_inv r st : Inv st -> In r (stopQueue st) -> Inv (onstop r st).
Proof.
  intros HI Hr. destruct HI as [I1 I2 I3 I4 I5 I6 I7].
  destruct (I5 r Hr) as [Ha Hnr].
  destruct (remove_nat_nodup r _ I6) as [N1 N2].
  unfold onstop. destruct (sum (audioChunks st) <? 500)%nat.
  all: constructor; simpl; auto.
  all: try (now apply NoDup_snoc).
  all: try (intros r' Hr'; apply in_app_or in Hr' as [Hr'|[<-|[]]]; auto).
  all: try (intros r' Hr'; assert (Hq := remove_nat_in _ _ _ Hr');
            destruct (I5 r' Hq) as [Ha' Hn']; split; [exact Ha'|];
            intro Hin; apply in_app_or in Hin as [Hin|[<-|[]]]; auto).
  all: intros x Hx Hs; destruct (I7 x Hx Hs) as [M1 M2];
       split; [intro Hin; apply M1, (remove_nat_in r), Hin|];
       intro Hin; apply in_app_or in Hin as [Hin|[Heq|[]]]; auto;
       apply M1; rewrite <- Heq; exact Hr.
Qed.

Lemma ended_inv st r : Inv st -> Inv (step st (RecorderEnded r)).
Proof.
  intro HI. cbn [step].
  destruct (find_rec r (recorders st)) as [x|] eqn:Ef; [|exact HI].
  destruct (r_status x) eqn:Es; [|exact HI].
  destruct (find_rec_in _ _ _ Ef) as [Hin Hid].
  destruct (inv_recording _ HI x Hin Es) as [Nq Nr]. rewrite Hid in Nq, Nr.
  assert (Ha : In r (acquired st)) by (rewrite <- Hid; apply (inv_rec_acq _ HI), Hin).
  destruct HI as [I1 I2 I3 I4 I5 I6 I7].
  constructor; simpl; auto.
  - intros y Hy. destruct (set_inactive_in _ _ _ Hy) as [y0 [Hy0 [<- _]]]. auto.
  - intros r' Hr'. apply in_app_or in Hr' as [Hr'|[<-|[]]]; auto.
  - now apply NoDup_snoc.
  - intros y Hy Hs. destruct (set_inactive_in _ _ _ Hy) as [y0 [Hy0 [Hid' Hrec]]].
    destruct (Hrec Hs) as [Hs0 Hne]. rewrite <- Hid'.
    destruct (I7 y0 Hy0 Hs0) as [N1 N2]. split; [|exact N2].
    rewrite Hid'. intro Hin'. apply in_app_or in Hin' as [Hin'|[Heq|[]]].
    + apply N1. now rewrite Hid'.
    + congruence.
Qed.

Lemma step_inv st e : Inv st -> Inv (step st e).
Proof.
  intro HI. destruct e as [|o|r n|r|r| |o|].
  - simpl. unfold toggleListening. destruct (negb (mounted st)); [exact HI|].
    destruct (isListening st); [apply stop_inv|apply start_inv]; exact HI.
  - simpl. destruct (pendingGum st =? 0)%nat; [exact HI|apply gum_inv, HI].
  - simpl. destruct (find_rec r (recorders st)); [|exact HI].
    destruct (0 <? n)%nat; [frame|exact HI].
  - simpl. destruct (existsb (Nat.eqb r) (stopQueue st)) eqn:E; [|exact HI].
    apply onstop_inv; [exact HI|].
    apply existsb_exists in E as [r' [Hin Heq]]. apply Nat.eqb_eq in Heq.
    now subst.
  - apply ended_inv, HI.
  - simpl. destruct (readers st); [exact HI|frame].
  - simpl. destruct (inflight st =? 0)%nat; [exact HI|frame].
  - simpl. frame.
Qed.

Lemma run_inv evs : forall st, Inv st -> Inv (run st evs).
Proof.
  induction evs as [|e evs IH]; intros st HI; [exact HI|].
  simpl. apply IH, step_inv, HI.
Qed.

Lemma init_inv : Inv init.
Proof.
  constructor; simpl; try (intros; contradiction); try constructor.
Qed.

End VoiceFacts.

(** ** Claims about voice capture *)

Module VoiceClaims.
Import Voice VoiceSpec VoiceFacts.
Open Scope string_scope.
Open Scope list_scope.

(** Once the component is gone no handler of the application stops a
    recorder: as long as no recorder stops by itself, every recorder stays
    in the state, with its status. *)
Lemma unmounted_run evs : forall st x,
  mounted st = false -> In x (recorders st) ->
  Forall (fun e => self_stop e = false) evs ->
  mounted (run st evs) = false /\ In x (recorders (run st evs)).
Proof.
  induction evs as [|e evs IH]; intros st x Hm Hx Hself; [auto|].
  inversion Hself as [|? ? He Hrest]; subst.
  cbn [run fold_left]. apply IH; [| |exact Hrest].
  - destruct e; simpl; auto; try discriminate He.
    + unfold toggleListening. now rewrite Hm.
    + destruct (pendingGum st =? 0)%nat; [auto|]. destruct o; simpl; auto.
    + destruct (find_rec r (recorders st)); [|auto]. destruct (0 <? size)%nat; auto.
    + destruct (existsb (Nat.eqb r) (stopQueue st)); [|auto].
      unfold onstop. destruct (_ <? _)%nat; auto.
    + destruct (readers st); auto.
    + destruct (inflight st =? 0)%nat; auto.
  - destruct e; simpl; auto; try discriminate He.
    + unfold toggleListening. now rewrite Hm.
    + destruct (pendingGum st =? 0)%nat; [auto|].
      destruct o; simpl; auto. apply in_or_app. auto.
    + destruct (find_rec r (recorders st)); [|auto]. destruct (0 <? size)%nat; auto.
    + destruct (existsb (Nat.eqb r) (stopQueue st)); [|auto].
      unfold onstop. destruct (_ <? _)%nat; auto.
    + destruct (readers st); auto.
    + destruct (inflight st =? 0)%nat; auto.
Qed.

(** C2 fails: no teardown path releases the device. A recording is
    started and the component unmounts: the acquired stream 0 is not
    released by the unmount, nor by any later sequence of events in which
    no recorder stops by itself (only the device or the browser ending the
    track would release it). *)
Lemma C2_counterexample :
  In 0%nat (acquired (run init [Toggle; GumResolve (GumOk (js "audio/webm;codecs=opus")); Unmount])) /\
  ~ In 0%nat (released (run init [Toggle; GumResolve (GumOk (js "audio/webm;codecs=opus")); Unmount])) /\
  ~ (exists evs,
       Forall (fun e => self_stop e = false) evs /\
       In 0%nat (released (run (run init [Toggle; GumResolve (GumOk (js "audio/webm;codecs=opus"));
                                         Unmount]) evs))).
Proof.
  split; [left; reflexivity|split; [intros []|]].
  intros [evs [Hself Hin]].
  set (st0 := run init [Toggle; GumResolve (GumOk (js "audio/webm;codecs=opus")); Unmount]) in *.
  set (x := mkRec 0 (js "audio/webm;codecs=opus") Recording).
  assert (Hm : mounted st0 = false) by reflexivity.
  assert (Hx : In x (recorders st0)) by (left; reflexivity).
  destruct (unmounted_run evs st0 x Hm Hx Hself) as [_ Hx'].
  assert (HI := run_inv evs st0 (run_inv _ init init_inv)).
  destruct (inv_recording _ HI x Hx' eq_refl) as [_ Nr].
  exact (Nr Hin).
Qed.

(** C4: when the stop event of a queued recorder fires with less than 500
    bytes collected, the transcribing flag is not set, no FileReader job
    (hence no POST /transcribe) is started, and the error is the
    "No audio captured" message. *)
Theorem C4_small_blob_not_transcribed : forall st r,
  In r (stopQueue st) ->
  (sum (audioChunks st) < 500)%nat ->
  isTranscribing (step st (FireOnStop r)) = isTranscribing st /\
  readers (step st (FireOnStop r)) = readers st /\
  requests (step st (FireOnStop r)) = requests st /\
  inflight (step st (FireOnStop r)) = inflight st /\
  voiceError (step st (FireOnStop r)) = Some msg_no_audio.
Proof.
  intros st r Hr Hsz.
  assert (Hq : existsb (Nat.eqb r) (stopQueue st) = true).
  { apply existsb_exists. exists r. split; [exact Hr|apply Nat.eqb_refl]. }
  cbn [step]. rewrite Hq. unfold onstop.
  rewrite (proj2 (Nat.ltb_lt _ _) Hsz). repeat split.
Qed.

Lemma C4_witness :
  (In 0%nat (stopQueue (run init [Toggle; GumResolve (GumOk (js "audio/webm"));
                                  DataAvailable 0 120; Toggle])) /\
   (sum (audioChunks (run init [Toggle; GumResolve (GumOk (js "audio/webm"));
                                DataAvailable 0 120; Toggle])) < 500)%nat) /\
  voiceError (step (run init [Toggle; GumResolve (GumOk (js "audio/webm"));
                              DataAvailable 0 120; Toggle]) (FireOnStop 0)) = Some msg_no_audio.
Proof.
  assert (H1 : In 0%nat (stopQueue (run init [Toggle; GumResolve (GumOk (js "audio/webm"));
                                             DataAvailable 0 120; Toggle])))
    by (left; reflexivity).
  assert (H2 : (sum (audioChunks (run init [Toggle; GumResolve (GumOk (js "audio/webm"));
                                           DataAvailable 0 120; Toggle])) < 500)%nat)
    by (vm_compute; lia).
  split; [auto|].
  exact (proj2 (proj2 (proj2 (proj2 (C4_small_blob_not_transcribed _ _ H1 H2))))).
Defined.

End VoiceClaims.

(** ** Claims about the endpoints *)

Module EndpointClaims.
Import Dispatch Server Voice.
Open Scope string_scope.
Open Scope list_scope.

Lemma hd_split_on sep base rest :
  ~ In sep base -> hd [] (split_on sep (base ++ sep :: rest)) = base.
Proof.
  induction base as [|c base IH]; intro Hn.
  - simpl. now rewrite Z.eqb_refl.
  - simpl. assert (Hc : Z.eqb c sep = false).
    { apply Z.eqb_neq. intro E. apply Hn. left. exact E. }
    rewrite Hc.
    assert (IH' : hd [] (split_on sep (base ++ sep :: rest)) = base)
      by (apply IH; intro H; apply Hn; right; exact H).
    destruct (split_on sep (base ++ sep :: rest)) as [|w ws]; simpl in *; congruence.
Qed.

Lemma safeMimeType_param base params :
  ~ In 59 base -> safeMimeType (Some (base ++ 59 :: params)) = trim base.
Proof.
  intro Hn. unfold safeMimeType.
  assert (E : exists x xs, base ++ 59 :: params = x :: xs)
    by (destruct base as [|c base]; eexists _, _; reflexivity).
  destruct E as [x [xs E]]. rewrite E. cbn [or_default]. rewrite <- E.
  rewrite hd_split_on by exact Hn. reflexivity.
Qed.

(** The request of a recording with the browser's type
    ["audio/webm;codecs=opus"], 2000 bytes, stopped by a second click. *)
Definition opus_trace : list event :=
  [Toggle; GumResolve (GumOk (js "audio/webm;codecs=opus")); DataAvailable 0 2000;
   Toggle; FireOnStop 0; ReaderLoaded].

(** C1 fails as stated: the client posts the recorder's type with its codec
    parameter to /transcribe. *)
Lemma C1_counterexample :
  requests (run init opus_trace) = [js "audio/webm;codecs=opus"] /\
  requests (run init opus_trace) <> [js "audio/webm"].
Proof.
  split; [reflexivity|]. vm_compute. intro H. discriminate H.
Qed.

(** C1 (amended): the /transcribe handler passes to the provider the text
    before the first [';'] of the received type, trimmed; the client posts
    the recorder's type unchanged, and for ["audio/webm;codecs=opus"] the
    provider receives ["audio/webm"]. *)
Theorem C1_codec_stripped_by_server :
  (forall base params a prov,
      ~ In 59 base -> a <> [] ->
      fst (transcribe (Some a) (Some (base ++ 59 :: params)) prov) = Some (trim base, a)) /\
  (forall a prov,
      a <> [] ->
      fst (transcribe (Some a) (Some (hd [] (requests (run init opus_trace)))) prov) =
      Some (js "audio/webm", a)).
Proof.
  split.
  - intros base params a prov Hn Ha. unfold transcribe.
    destruct a as [|c a]; [contradiction|].
    simpl. now rewrite safeMimeType_param.
  - intros a prov Ha. destruct a as [|c a]; [contradiction|]. reflexivity.
Qed.

Lemma C1_witness :
  (~ In 59 (js "audio/webm") /\ js "QUJD" <> []) /\
  fst (transcribe (Some (js "QUJD")) (Some (js "audio/webm" ++ 59 :: js "codecs=opus"))
                  (fun _ _ => ProvText (js "I have a headache"))) =
  Some (trim (js "audio/webm"), js "QUJD").
Proof.
  assert (H1 : ~ In 59 (js "audio/webm")) by (vm_compute; intuition discriminate).
  assert (H2 : js "QUJD" <> []) by discriminate.
  split; [auto|].
  exact (proj1 C1_codec_stripped_by_server _ _ _ _ H1 H2).
Defined.

(** C5: a text that trims to the empty string, passed as the argument or
    read from the input field, gives no effect: no message appended, no
    POST /chat. *)
Theorem C5_blank_input_no_effects : forall s input,
  trim s = [] ->
  sendMessage (ArgString s) input = [] /\ sendMessage ArgOther s = [].
Proof.
  intros s input H. unfold sendMessage. rewrite H. split; reflexivity.
Qed.

Lemma C5_witness :
  trim (js "  ") = [] /\
  (sendMessage (ArgString (js "  ")) (js "headache") = [] /\ sendMessage ArgOther (js "  ") = []).
Proof.
  assert (H : trim (js "  ") = []) by reflexivity.
  split; [exact H|].
  exact (C5_blank_input_no_effects _ (js "headache") H).
Defined.

(** C8: missing audio gives 400; an empty (trimmed) transcript from the
    provider gives 422; a provider failure gives 500 with the error's own
    message when it has a non-empty one, and "Transcription failed"
    otherwise. *)
Theorem C8_status_taxonomy :
  (forall audio mime prov,
      audio = None \/ audio = Some [] ->
      transcribe audio mime prov = (None, Resp 400 (JError (js "Audio data required")))) /\
  (forall a mime prov t,
      a <> [] -> prov (safeMimeType mime) a = ProvText t -> trim t = [] ->
      status (snd (transcribe (Some a) mime prov)) = 422%nat) /\
  (forall a mime prov m,
      a <> [] -> prov (safeMimeType mime) a = ProvThrow (Some m) -> m <> [] ->
      snd (transcribe (Some a) mime prov) = Resp 500 (JError m)) /\
  (forall a mime prov,
      a <> [] ->
      (prov (safeMimeType mime) a = ProvThrow None \/
       prov (safeMimeType mime) a = ProvThrow (Some [])) ->
      snd (transcribe (Some a) mime prov) = Resp 500 (JError (js "Transcription failed"))).
Proof.
  split; [|split; [|split]].
  - intros audio mime prov [-> | ->]; reflexivity.
  - intros [|c a] mime prov t Ha Hp Ht; [contradiction|].
    unfold transcribe. rewrite Hp. simpl. rewrite Ht. reflexivity.
  - intros [|c a] mime prov [|x m] Ha Hp Hm; [contradiction|contradiction|contradiction|].
    unfold transcribe. rewrite Hp. reflexivity.
  - intros [|c a] mime prov Ha Hp; [contradiction|].
    unfold transcribe. destruct Hp as [Hp|Hp]; rewrite Hp; reflexivity.
Qed.

Lemma C8_witness :
  (js "QUJD" <> [] /\
   (fun (_ _ : jstr) => ProvText (js "  ")) (safeMimeType (Some (js "audio/webm"))) (js "QUJD") =
     ProvText (js "  ") /\
   trim (js "  ") = []) /\
  status (snd (transcribe (Some (js "QUJD")) (Some (js "audio/webm"))
                          (fun _ _ => ProvText (js "  ")))) = 422%nat.
Proof.
  assert (H1 : js "QUJD" <> []) by discriminate.
  assert (H2 : (fun (_ _ : jstr) => ProvText (js "  ")) (safeMimeType (Some (js "audio/webm")))
                 (js "QUJD") = ProvText (js "  ")) by reflexivity.
  assert (H3 : trim (js "  ") = []) by reflexivity.
  split; [auto|].
  exact (proj1 (proj2 C8_status_taxonomy) _ _ _ _ H1 H2 H3).
Defined.

End EndpointClaims.

(* ================================================================== *)
(** * Further properties of the code *)

Module StrFacts.

Lemma drop_while_head p s :
  match drop_while p s with [] => True | c :: _ => p c = false end.
Proof.
  induction s as [|c s IH]; simpl; [exact I|].
  destruct (p c) eqn:E; [exact IH|exact E].
Qed.

Lemma drop_while_suffix p s : exists pre, s = pre ++ drop_while p s.
Proof.
  induction s as [|c s [pre IH]]; simpl; [exists []; reflexivity|].
  destruct (p c); [exists (c :: pre); simpl; now f_equal|exists []; reflexivity].
Qed.

Lemma drop_while_id p s :
  match s with [] => True | c :: _ => p c = false end -> drop_while p s = s.
Proof. destruct s as [|c s]; simpl; [auto|]. intro H. now rewrite H. Qed.

(** [trim] is idempotent. *)
Lemma trim_idem s : trim (trim s) = trim s.
Proof.
  unfold trim at 2 3.
  set (t := drop_while is_space s).
  set (u := drop_while is_space (rev t)).
  assert (Ht := drop_while_head is_space s). fold t in Ht.
  assert (Hu := drop_while_head is_space (rev t)). fold u in Hu.
  destruct (drop_while_suffix is_space (rev t)) as [pre Hpre]. fold u in Hpre.
  destruct u as [|c u'] eqn:Eu.
  - reflexivity.
  - assert (Ht' : t = rev (c :: u') ++ rev pre).
    { rewrite <- rev_app_distr, <- Hpre. symmetry. apply rev_involutive. }
    assert (H1 : match rev (c :: u') with [] => True | d :: _ => is_space d = false end).
    { rewrite Ht' in Ht. destruct (rev (c :: u')) as [|d v]; [exact I|].
      exact Ht. }
    unfold trim. rewrite (drop_while_id is_space (rev (c :: u')) H1).
    rewrite rev_involutive.
    rewrite (drop_while_id is_space (c :: u') Hu). reflexivity.
Qed.

End StrFacts.

Module ParserExtras.
Import Parser ParserSpec ParserFacts ParserExtraSpec Render StrFacts.

Lemma push_trimmed st x :
  values_trimmed st -> trim x = x -> values_trimmed (push st x).
Proof.
  intros H Hx. unfold push.
  destruct (currentKey st) as [c|]; [|exact H].
  destruct (sections st c) as [[v|l]|] eqn:Es; try exact H.
  intro k. simpl. unfold upd. destruct (key_eqb c k) eqn:E.
  - unfold key_eqb in E. destruct (key_eq_dec c k) as [<-|]; [|discriminate].
    specialize (H c). rewrite Es in H.
    apply Forall_app. split; [exact H|]. constructor; [exact Hx|constructor].
  - apply H.
Qed.

Lemma process_line_trimmed st l : values_trimmed st -> values_trimmed (process_line st l).
Proof.
  intro H. unfold process_line.
  destruct (header_of l) as [j|].
  - intro k. simpl. unfold upd. destruct (key_eqb j k).
    + destruct (is_list_key j); [constructor|apply trim_idem].
    + apply H.
  - destruct (starts_with (js "-") l && current_is_array st).
    + apply push_trimmed; [exact H|apply trim_idem].
    + destruct (numbered_re l && current_is_array st); [|exact H].
      apply push_trimmed; [exact H|apply trim_idem].
Qed.

(** Every value [formatBotReply] stores, a scalar value or a list item,
    is trimmed. *)
Theorem formatBotReply_values_trimmed : forall text,
  values_trimmed (formatBotReply text).
Proof.
  intro text. unfold formatBotReply. generalize (lines_of text).
  assert (H0 : values_trimmed init) by (intro k; exact I).
  intro ls. revert H0. generalize init.
  induction ls as [|l ls IH]; intros st H; [exact H|].
  rewrite parse_lines_cons. apply IH, process_line_trimmed, H.
Qed.

(** A reply in which no line matches a header pattern gives an empty
    [sections] object, and the card shows no section. *)
Theorem formatBotReply_no_header_empty : forall text,
  Forall (fun l => header_of l = None) (lines_of text) ->
  formatBotReply text = init /\ displayed_keys (formatBotReply text) = [].
Proof.
  intros text H. unfold formatBotReply.
  rewrite parse_lines_init_plain by exact H. split; reflexivity.
Qed.

Lemma formatBotReply_no_header_empty_witness :
  Forall (fun l => header_of l = None) (lines_of (js_lines ["I am not sure."%string; "Rest well."%string])) /\
  (formatBotReply (js_lines ["I am not sure."%string; "Rest well."%string]) = init /\
   displayed_keys (formatBotReply (js_lines ["I am not sure."%string; "Rest well."%string])) = []).
Proof.
  assert (H : Forall (fun l => header_of l = None)
                     (lines_of (js_lines ["I am not sure."%string; "Rest well."%string])))
    by (repeat constructor).
  split; [exact H|]. exact (formatBotReply_no_header_empty _ H).
Defined.

Ltac zcmp :=
  repeat match goal with
  | |- context [?a =? ?b] =>
      first [rewrite (proj2 (Z.eqb_neq a b)) by lia | rewrite (proj2 (Z.eqb_eq a b)) by lia]
  | |- context [?a <=? ?b] =>
      first [rewrite (proj2 (Z.leb_le a b)) by lia | rewrite (proj2 (Z.leb_gt a b)) by lia]
  end.

Lemma canon_cases c : canon c = c \/ (97 <= c <= 122 /\ canon c = c - 32).
Proof.
  unfold canon. destruct ((97 <=? c) && (c <=? 122)) eqn:E; [right|left; reflexivity].
  apply andb_prop in E as [E1 E2]. apply Z.leb_le in E1, E2. split; [lia|reflexivity].
Qed.

Lemma canon_idem c : canon (canon c) = canon c.
Proof.
  destruct (canon_cases c) as [H | [Hc H]]; rewrite H.
  - exact H.
  - unfold canon. zcmp. reflexivity.
Qed.

Lemma is_space_canon c : is_space (canon c) = is_space c.
Proof.
  destruct (canon_cases c) as [-> | [Hc ->]]; [reflexivity|].
  unfold is_space. zcmp. reflexivity.
Qed.

Lemma is_line_terminator_canon c : is_line_terminator (canon c) = is_line_terminator c.
Proof.
  destruct (canon_cases c) as [-> | [Hc ->]]; [reflexivity|].
  unfold is_line_terminator. zcmp. reflexivity.
Qed.

Lemma starts_ci_canon p s : starts_ci p (map canon s) = starts_ci p s.
Proof.
  revert s. induction p as [|a p IH]; intros [|c s]; simpl; auto.
  now rewrite canon_idem, IH.
Qed.

Lemma take_while_space_canon s :
  take_while is_space (map canon s) = map canon (take_while is_space s).
Proof.
  induction s as [|c s IH]; simpl; [reflexivity|].
  rewrite is_space_canon. destruct (is_space c); simpl; [now rewrite IH|reflexivity].
Qed.

Lemma match_seq_canon p s : match_seq p (map canon s) = match_seq p s.
Proof.
  revert s. induction p as [|[w| |] p IH]; intro s; simpl; [reflexivity| | |].
  - rewrite starts_ci_canon, skipn_map, IH. reflexivity.
  - rewrite take_while_space_canon, length_map, skipn_map, IH. reflexivity.
  - rewrite take_while_space_canon, length_map, skipn_map, IH. reflexivity.
Qed.

Lemma test_any_canon m s :
  (forall s', m (map canon s') = m s') -> test_any m (map canon s) = test_any m s.
Proof.
  intro Hm. induction s as [|c s IH]; simpl.
  - reflexivity.
  - rewrite IH. f_equal. apply (Hm (c :: s)).
Qed.

Lemma dot_star_alt_canon s : dot_star_alt (map canon s) = dot_star_alt s.
Proof.
  assert (E : forall u, dot_star_alt u =
    starts_ci (js "doctor") u || starts_ci (js "medical") u
    || match u with
       | [] => false
       | c :: u' => negb (is_line_terminator c) && dot_star_alt u'
       end) by (intros [|]; reflexivity).
  induction s as [|c s IH]; [reflexivity|].
  rewrite (E (map canon (c :: s))), (E (c :: s)), !starts_ci_canon.
  cbn [map]. rewrite is_line_terminator_canon, IH. reflexivity.
Qed.

Lemma key_test_canon k line : key_test k (map canon line) = key_test k line.
Proof.
  destruct k; unfold key_test; apply test_any_canon; intro s';
    try (unfold seq_matches; now rewrite match_seq_canon).
  unfold see_doctor_at. rewrite !starts_ci_canon, !skipn_map, !dot_star_alt_canon.
  reflexivity.
Qed.

(** Header recognition ignores the case of ASCII letters: upper-casing
    the letters a-z of a line does not change which header pattern it
    matches, if any. *)
Theorem header_of_case_insensitive : forall line,
  header_of (to_upper_ascii line) = header_of line.
Proof.
  intro line. unfold header_of, to_upper_ascii.
  induction matcher_keys as [|k ks IH]; simpl; [reflexivity|].
  now rewrite key_test_canon, IH.
Qed.

End ParserExtras.

Module EndpointExtras.
Import Dispatch Server ChatServer DispatchRun Parser Render StrFacts.

Lemma In_drop_while p x s : In x (drop_while p s) -> In x s.
Proof.
  intro H. destruct (drop_while_suffix p s) as [pre E].
  rewrite E. apply in_or_app. right. exact H.
Qed.

Lemma In_trim x s : In x (trim s) -> In x s.
Proof.
  unfold trim. intro H.
  apply in_rev in H. apply In_drop_while in H.
  apply in_rev in H. apply In_drop_while in H. exact H.
Qed.

Lemma hd_split_on_no_sep sep s : ~ In sep (hd [] (split_on sep s)).
Proof.
  induction s as [|c s IH]; simpl; [tauto|].
  destruct (Z.eqb c sep) eqn:E; simpl; [tauto|].
  apply Z.eqb_neq in E.
  destruct (split_on sep s) as [|w ws]; simpl in *.
  - intros [H|H]; [exact (E H)|exact H].
  - intros [H|H]; [exact (E H)|exact (IH H)].
Qed.

(** The type [/transcribe] gives the provider never contains [';'], is
    trimmed, and is ["audio/webm"] when the request has no type or an
    empty one. *)
Theorem safeMimeType_shape :
  (forall m, ~ In 59 (safeMimeType m) /\ trim (safeMimeType m) = safeMimeType m) /\
  safeMimeType None = js "audio/webm" /\ safeMimeType (Some []) = js "audio/webm".
Proof.
  split; [|split; reflexivity].
  intro m. unfold safeMimeType. split; [|apply trim_idem].
  intro H. apply In_trim in H. exact (hd_split_on_no_sep _ _ H).
Qed.

(** The bot message the client appends for a /chat request with
    non-empty symptoms: the provider text when it is not empty, and
    "No reply from server." when it is empty or the provider fails. *)
Theorem chat_bot_message : forall s prov,
  s <> [] ->
  bot_text (chat_outcome_of (snd (chat (Some s) prov))) =
    match prov (prompt s) with
    | ProvText ((_ :: _) as t) => t
    | _ => js "No reply from server."
    end.
Proof.
  intros [|c s] prov Hs; [contradiction|].
  unfold chat. cbv zeta.
  destruct (prov (prompt (c :: s))) as [[|d t]|m]; reflexivity.
Qed.

Lemma chat_bot_message_witness :
  js "cough" <> [] /\
  bot_text (chat_outcome_of (snd (chat (Some (js "cough")) (fun _ => ProvThrow None)))) =
    match (fun _ : jstr => ProvThrow None) (prompt (js "cough")) with
    | ProvText ((_ :: _) as t) => t
    | _ => js "No reply from server."
    end.
Proof.
  assert (H : js "cough" <> []) by discriminate.
  split; [exact H|]. exact (chat_bot_message _ _ H).
Defined.

(** When [sendMessage] posts, it clears the input field (also when the
    text comes from the voice path), appends exactly one user message with
    the text as given, untrimmed, and posts that text, which /chat never
    rejects with 400: it builds the prompt from it. *)
Theorem send_start_posts : forall a input msgs input' msgs' p,
  send_start a input msgs = (input', msgs', Some p) ->
  input' = [] /\ msgs' = msgs ++ [Msg User p] /\
  p = match a with ArgString s => s | ArgOther => input end /\ trim p <> [] /\
  (forall prov, fst (chat (Some p) prov) = Some (prompt p) /\
                fst (snd (chat (Some p) prov)) <> 400%nat).
Proof.
  intros a input msgs input' msgs' p H. unfold send_start in H.
  set (text := match a with ArgString s => s | ArgOther => input end) in *.
  destruct (trim text) as [|c u] eqn:Et; [discriminate|].
  injection H as <- <- <-.
  split; [reflexivity|split; [reflexivity|split; [reflexivity|split]]].
  - rewrite Et. discriminate.
  - intro prov. destruct text as [|d t]; [discriminate|].
    unfold chat. cbv zeta. split; [reflexivity|].
    destruct (prov (prompt (d :: t))); simpl; discriminate.
Qed.

Lemma send_start_posts_witness :
  send_start (ArgString (js " chest pain")) (js "typed") [] =
    ([], [Msg User (js " chest pain")], Some (js " chest pain")) /\
  ([] = @nil jchar /\ [Msg User (js " chest pain")] = [] ++ [Msg User (js " chest pain")] /\
   js " chest pain" = js " chest pain" /\ trim (js " chest pain") <> [] /\
   (forall prov, fst (chat (Some (js " chest pain")) prov) = Some (prompt (js " chest pain")) /\
                 fst (snd (chat (Some (js " chest pain")) prov)) <> 400%nat)).
Proof.
  assert (H : send_start (ArgString (js " chest pain")) (js "typed") [] =
                ([], [Msg User (js " chest pain")], Some (js " chest pain"))) by reflexivity.
  split; [exact H|]. exact (send_start_posts _ _ _ _ _ _ H).
Defined.

(** The bot messages of a failed request, "Error connecting to server."
    and "No reply from server.", contain no header, so the bot bubble,
    which only shows parsed sections, renders them empty. *)
Theorem fallback_bot_message_blank : forall o,
  o = ChatThrow \/ o = ChatJson None \/ o = ChatJson (Some []) ->
  formatBotReply (bot_text o) = init /\ displayed_keys (formatBotReply (bot_text o)) = [].
Proof.
  intros o [->|[->| ->]]; split; vm_compute; reflexivity.
Qed.

Lemma fallback_bot_message_blank_witness :
  (ChatThrow = ChatThrow \/ ChatThrow = ChatJson None \/ ChatThrow = ChatJson (Some [])) /\
  (formatBotReply (bot_text ChatThrow) = init /\
   displayed_keys (formatBotReply (bot_text ChatThrow)) = []).
Proof.
  assert (H : ChatThrow = ChatThrow \/ ChatThrow = ChatJson None \/
              ChatThrow = ChatJson (Some [])) by (left; reflexivity).
  split; [exact H|]. exact (fallback_bot_message_blank _ H).
Defined.

End EndpointExtras.

Module VoiceExtras.
Import Dispatch Server DispatchRun Voice VoiceFacts VoiceExtraSpec Pipeline StrFacts.

Lemma or_default_nonempty x d e :
  d <> [] -> or_default (Some (or_default x d)) e = or_default x d.
Proof. intro Hd. destruct x as [[|c s]|]; simpl; [|reflexivity|]; destruct d; tauto. Qed.

(** A /transcribe request that settles with an error response of the
    server: the client clears [isTranscribing] and shows the server's
    error text, the provider's message or the empty-transcript text; its
    own fallback text is never shown for these responses. A successful
    response leaves the error shown unchanged. *)
Theorem transcribe_done_with_server : forall st a mime prov,
  inflight st <> 0%nat -> a <> [] ->
  let st' := step st (TranscribeDone (transcribe_outcome_of (snd (transcribe (Some a) mime prov)))) in
  isTranscribing st' = false /\ inflight st' = Nat.pred (inflight st) /\
  voiceError st' =
    match prov (safeMimeType mime) a with
    | ProvText t =>
        match trim t with
        | [] => Some (js "Gemini returned an empty transcript. Audio may be too quiet or silent.")
        | _ => voiceError st
        end
    | ProvThrow m => Some (or_default m (js "Transcription failed"))
    end.
Proof.
  intros st [|c a] mime prov Hi Ha st'; [contradiction|]. subst st'.
  cbn [step]. rewrite (proj2 (Nat.eqb_neq _ _) Hi).
  unfold transcribe. cbv zeta.
  destruct (prov (safeMimeType mime) (c :: a)) as [t|m].
  - destruct (trim t) as [|d u]; cbn; repeat split; reflexivity.
  - cbn. repeat split; try reflexivity.
    f_equal. apply or_default_nonempty. discriminate.
Qed.

Lemma transcribe_done_with_server_witness :
  (inflight (step (run init (ogg_trace ++ [FireOnStop 0])) ReaderLoaded) <> 0%nat /\
   js "QUJD" <> []) /\
  (let st := step (run init (ogg_trace ++ [FireOnStop 0])) ReaderLoaded in
   let prov := fun (_ _ : jstr) => ProvThrow (Some (js "quota exceeded")) in
   let st' := step st (TranscribeDone (transcribe_outcome_of
                 (snd (transcribe (Some (js "QUJD")) (Some (js "audio/ogg")) prov)))) in
   isTranscribing st' = false /\ inflight st' = Nat.pred (inflight st) /\
   voiceError st' =
     match prov (safeMimeType (Some (js "audio/ogg"))) (js "QUJD") with
     | ProvText t =>
         match trim t with
         | [] => Some (js "Gemini returned an empty transcript. Audio may be too quiet or silent.")
         | _ => voiceError st
         end
     | ProvThrow m => Some (or_default m (js "Transcription failed"))
     end).
Proof.
  assert (H1 : inflight (step (run init (ogg_trace ++ [FireOnStop 0])) ReaderLoaded) <> 0%nat)
    by (vm_compute; discriminate).
  assert (H2 : js "QUJD" <> []) by discriminate.
  split; [auto|].
  exact (transcribe_done_with_server _ _ (Some (js "audio/ogg"))
           (fun _ _ => ProvThrow (Some (js "quota exceeded"))) H1 H2).
Defined.

(** End to end: a non-blank provider transcript reaches the client as the
    trimmed transcript, the client clears [isTranscribing] without showing
    an error, and [sendMessage] then clears the input and posts exactly
    the trimmed transcript as one user message. *)
Theorem voice_success_posts_transcript : forall st a mime prov t input msgs,
  inflight st <> 0%nat -> a <> [] ->
  prov (safeMimeType mime) a = ProvText t -> trim t <> [] ->
  let o := transcribe_outcome_of (snd (transcribe (Some a) mime prov)) in
  o = TdTranscript (trim t) /\
  isTranscribing (step st (TranscribeDone o)) = false /\
  voiceError (step st (TranscribeDone o)) = voiceError st /\
  send_start (ArgString (trim t)) input msgs =
    ([], msgs ++ [Msg User (trim t)], Some (trim t)).
Proof.
  intros st [|c a] mime prov t input msgs Hi Ha Hp Ht o; [contradiction|].
  assert (Ho : o = TdTranscript (trim t)).
  { subst o. unfold transcribe. cbv zeta. rewrite Hp.
    destruct (trim t) as [|d u]; [contradiction|reflexivity]. }
  split; [exact Ho|]. rewrite Ho.
  cbn [step]. rewrite (proj2 (Nat.eqb_neq _ _) Hi).
  destruct (trim t) as [|d u] eqn:E; [contradiction|].
  split; [reflexivity|split; [reflexivity|]].
  unfold send_start. rewrite <- E, trim_idem, E. reflexivity.
Qed.

Lemma voice_success_posts_transcript_witness :
  (inflight (step (run init (ogg_trace ++ [FireOnStop 0])) ReaderLoaded) <> 0%nat /\
   js "QUJD" <> [] /\
   (fun (_ _ : jstr) => ProvText (js " sore throat ")) (safeMimeType (Some (js "audio/ogg")))
     (js "QUJD") = ProvText (js " sore throat ") /\
   trim (js " sore throat ") <> []) /\
  (let st := step (run init (ogg_trace ++ [FireOnStop 0])) ReaderLoaded in
   let o := transcribe_outcome_of (snd (transcribe (Some (js "QUJD")) (Some (js "audio/ogg"))
              (fun _ _ => ProvText (js " sore throat ")))) in
   o = TdTranscript (trim (js " sore throat ")) /\
   isTranscribing (step st (TranscribeDone o)) = false /\
   voiceError (step st (TranscribeDone o)) = voiceError st /\
   send_start (ArgString (trim (js " sore throat "))) [] [] =
     ([], [] ++ [Msg User (trim (js " sore throat "))], Some (trim (js " sore throat ")))).
Proof.
  assert (H1 : inflight (step (run init (ogg_trace ++ [FireOnStop 0])) ReaderLoaded) <> 0%nat)
    by (vm_compute; discriminate).
  assert (H2 : js "QUJD" <> []) by discriminate.
  assert (H3 : (fun (_ _ : jstr) => ProvText (js " sore throat ")) (safeMimeType (Some (js "audio/ogg")))
                 (js "QUJD") = ProvText (js " sore throat ")) by reflexivity.
  assert (H4 : trim (js " sore throat ") <> []) by discriminate.
  split; [auto|].
  exact (voice_success_posts_transcript _ _ _ _ _ [] [] H1 H2 H3 H4).
Defined.

Lemma find_rec_set_inactive r r0 rs :
  find_rec r (set_inactive r0 rs) =
  option_map (fun x => if Nat.eqb (r_id x) r0 then mkRec (r_id x) (r_mime x) Inactive else x)
             (find_rec r rs).
Proof.
  induction rs as [|y rs IH]; [reflexivity|].
  unfold set_inactive in *. cbn [map find_rec].
  destruct (Nat.eqb (r_id y) r0) eqn:E0; cbn [r_id];
    destruct (Nat.eqb (r_id y) r) eqn:E1; cbn [option_map]; try rewrite E0; try reflexivity;
    exact IH.
Qed.

Lemma find_rec_set_inactive_stopped r r0 rs x :
  find_rec r rs = Some x -> (r_status x = Inactive \/ r = r0) ->
  exists y, find_rec r (set_inactive r0 rs) = Some y /\ r_status y = Inactive.
Proof.
  intros Hf Hs. rewrite find_rec_set_inactive, Hf. cbn [option_map].
  destruct (Nat.eqb (r_id x) r0) eqn:E; (eexists; split; [reflexivity|]); [reflexivity|].
  destruct Hs as [Hs| ->]; [exact Hs|].
  apply find_rec_in in Hf as [_ Hid]. rewrite Hid, Nat.eqb_refl in E. discriminate.
Qed.

Lemma sbr_frame st st' :
  stopped_before_release st ->
  recorders st' = recorders st -> stopQueue st' = stopQueue st -> released st' = released st ->
  stopped_before_release st'.
Proof.
  intros H E1 E2 E3 r Hr. rewrite E1. rewrite E2, E3 in Hr. exact (H r Hr).
Qed.

Lemma sbr_stop st : stopped_before_release st -> stopped_before_release (stopListening st).
Proof.
  intro H. unfold stopListening.
  destruct (recorderRef st) as [r0|]; [|exact H].
  destruct (negb (isListening st)); [exact H|].
  intros r Hr. cbn [recorders stopQueue released] in *.
  assert (Hold : In r (stopQueue st) \/ In r (released st) ->
                 exists y, find_rec r (set_inactive r0 (recorders st)) = Some y /\
                           r_status y = Inactive).
  { intro Ho. destruct (H r Ho) as [x [Hf Hs]].
    exact (find_rec_set_inactive_stopped _ _ _ _ Hf (or_introl Hs)). }
  destruct (find_rec r0 (recorders st)) as [x|] eqn:Ef; [|exact (Hold Hr)].
  destruct (r_status x); [|exact (Hold Hr)].
  destruct Hr as [Hr|Hr]; [|exact (Hold (or_intror Hr))].
  apply in_app_or in Hr as [Hr|[<-|[]]]; [exact (Hold (or_introl Hr))|].
  exact (find_rec_set_inactive_stopped _ _ _ _ Ef (or_intror eq_refl)).
Qed.

Lemma sbr_step st e : stopped_before_release st -> stopped_before_release (step st e).
Proof.
  intro H. destruct e as [|o|r n|r|r| |o|]; cbn [step].
  - unfold toggleListening. destruct (negb (mounted st)); [exact H|].
    destruct (isListening st); [apply sbr_stop, H|].
    unfold startListening. destruct (isListening st || isTranscribing st); [exact H|].
    apply (sbr_frame st); auto.
  - destruct (Nat.eqb (pendingGum st) 0); [exact H|].
    unfold gum_resolve. destruct o as [d| |m]; try (apply (sbr_frame st); auto; fail).
    intros r Hr. cbn [recorders stopQueue released] in *.
    destruct (H r Hr) as [x [Hf Hs]]. exists x. split; [|exact Hs].
    rewrite find_rec_app, Hf. reflexivity.
  - destruct (find_rec r (recorders st)); [|exact H].
    destruct (0 <? n)%nat; [|exact H]. apply (sbr_frame st); auto.
  - destruct (existsb (Nat.eqb r) (stopQueue st)) eqn:Ex; [|exact H].
    unfold onstop.
    destruct (sum (audioChunks st) <? 500)%nat; intros r' Hr; cbn [recorders stopQueue released] in *;
      apply H; (destruct Hr as [Hr|Hr]; [left; exact (remove_nat_in _ _ _ Hr)|]);
      (apply in_app_or in Hr as [Hr|[<-|[]]]; [right; exact Hr|left]);
      apply existsb_exists in Ex as [y [Hy Ey]]; apply Nat.eqb_eq in Ey; subst y; exact Hy.
  - destruct (find_rec r (recorders st)) as [x|] eqn:Ef; [|exact H].
    destruct (r_status x); [|exact H].
    intros r' Hr'. cbn [recorders stopQueue released] in Hr' |- *.
    destruct Hr' as [Hr'|Hr'].
    + apply in_app_or in Hr' as [Hr'|[<-|[]]].
      * destruct (H r' (or_introl Hr')) as [y [Hf Hs]].
        exact (find_rec_set_inactive_stopped _ _ _ _ Hf (or_introl Hs)).
      * exact (find_rec_set_inactive_stopped _ _ _ _ Ef (or_intror eq_refl)).
    + destruct (H r' (or_intror Hr')) as [y [Hf Hs]].
      exact (find_rec_set_inactive_stopped _ _ _ _ Hf (or_introl Hs)).
  - destruct (readers st); [exact H|]. apply (sbr_frame st); auto.
  - destruct (Nat.eqb (inflight st) 0); [exact H|]. apply (sbr_frame st); auto.
  - apply (sbr_frame st); auto.
Qed.

(** In every state reached from the initial one, a recorder whose stop
    event is queued, or whose stream was released, is a known recorder
    that is inactive: the application stops the tracks of a stream only in
    the stop event of its recorder, once that recorder has stopped (by
    [stop()] or by itself), never while it is still recording. *)
Theorem released_after_stop : forall evs,
  stopped_before_release (run init evs).
Proof.
  intro evs. unfold run.
  assert (H0 : stopped_before_release init) by (intros r [[]|[]]).
  revert H0. generalize init.
  induction evs as [|e evs IH]; intros st H; [exact H|].
  cbn [fold_left]. apply IH, sbr_step, H.
Qed.

(** Along every sequence of events from the initial state, including
    recorders stopping by themselves, no stream is released twice and
    only streams obtained from [getUserMedia] are released. *)
Theorem released_once_and_acquired : forall evs,
  NoDup (released (run init evs)) /\
  (forall r, In r (released (run init evs)) -> In r (acquired (run init evs))).
Proof.
  intro evs. assert (HI := run_inv evs init init_inv).
  split; [exact (VoiceSpec.inv_rel_nodup _ HI)|exact (VoiceSpec.inv_rel_acq _ HI)].
Qed.

(** When the recorder of an ongoing recording stops by itself (its track
    ended or a recording error), its stop event releases the stream while
    [isListening] stays true; the next click on the mic then only clears
    [isListening]: it queues no stop event and releases nothing. *)
Theorem self_stop_while_listening : forall st r x,
  mounted st = true -> isListening st = true -> recorderRef st = Some r ->
  find_rec r (recorders st) = Some x -> r_status x = Recording ->
  let st2 := step (step st (RecorderEnded r)) (FireOnStop r) in
  isListening st2 = true /\ released st2 = released st ++ [r] /\
  isListening (step st2 Toggle) = false /\
  stopQueue (step st2 Toggle) = stopQueue st2 /\
  released (step st2 Toggle) = released st2.
Proof.
  intros st r x Hm Hl Href Hf Hs st2.
  destruct (find_rec_in _ _ _ Hf) as [_ Hid].
  assert (Hf' : find_rec r (set_inactive r (recorders st)) =
                Some (mkRec (r_id x) (r_mime x) Inactive)).
  { rewrite find_rec_set_inactive, Hf. cbn [option_map]. now rewrite Hid, Nat.eqb_refl. }
  set (st1 := step st (RecorderEnded r)) in st2.
  assert (E1 : mounted st1 = mounted st /\ isListening st1 = isListening st /\
               recorderRef st1 = recorderRef st /\
               recorders st1 = set_inactive r (recorders st) /\
               stopQueue st1 = stopQueue st ++ [r] /\ released st1 = released st)
    by (unfold st1; cbn [step]; rewrite Hf, Hs; repeat split).
  clearbody st1. destruct E1 as [M1 [L1 [R1 [C1 [Q1 D1]]]]].
  assert (Hex : existsb (Nat.eqb r) (stopQueue st1) = true).
  { apply existsb_exists. exists r. rewrite Q1. split; [|apply Nat.eqb_refl].
    apply in_or_app. right. left. reflexivity. }
  assert (E2 : mounted st2 = mounted st1 /\ isListening st2 = isListening st1 /\
               recorderRef st2 = recorderRef st1 /\ recorders st2 = recorders st1 /\
               released st2 = released st1 ++ [r])
    by (unfold st2; cbn [step]; rewrite Hex; unfold onstop;
        destruct (_ <? _)%nat; repeat split).
  clearbody st2. destruct E2 as [M2 [L2 [R2 [C2 D2]]]].
  rewrite M1, Hm in M2. rewrite L1, Hl in L2. rewrite R1, Href in R2.
  rewrite C1 in C2. rewrite D1 in D2.
  split; [exact L2|split; [exact D2|]].
  cbn [step]. unfold toggleListening. rewrite M2, L2. cbn [negb].
  unfold stopListening. rewrite R2, L2. cbn [negb]. rewrite C2, Hf'. cbn.
  repeat split.
Qed.

Lemma self_stop_while_listening_witness :
  (mounted (run init [Toggle; GumResolve (GumOk (js "audio/webm"))]) = true /\
   isListening (run init [Toggle; GumResolve (GumOk (js "audio/webm"))]) = true /\
   recorderRef (run init [Toggle; GumResolve (GumOk (js "audio/webm"))]) = Some 0%nat /\
   find_rec 0 (recorders (run init [Toggle; GumResolve (GumOk (js "audio/webm"))])) =
     Some (mkRec 0 (js "audio/webm") Recording) /\
   r_status (mkRec 0 (js "audio/webm") Recording) = Recording) /\
  (let st2 := step (step (run init [Toggle; GumResolve (GumOk (js "audio/webm"))])
                         (RecorderEnded 0)) (FireOnStop 0) in
   isListening st2 = true /\
   released st2 = released (run init [Toggle; GumResolve (GumOk (js "audio/webm"))]) ++ [0%nat] /\
   isListening (step st2 Toggle) = false /\
   stopQueue (step st2 Toggle) = stopQueue st2 /\
   released (step st2 Toggle) = released st2).
Proof.
  assert (H1 : mounted (run init [Toggle; GumResolve (GumOk (js "audio/webm"))]) = true)
    by reflexivity.
  assert (H2 : isListening (run init [Toggle; GumResolve (GumOk (js "audio/webm"))]) = true)
    by reflexivity.
  assert (H3 : recorderRef (run init [Toggle; GumResolve (GumOk (js "audio/webm"))]) = Some 0%nat)
    by reflexivity.
  assert (H4 : find_rec 0 (recorders (run init [Toggle; GumResolve (GumOk (js "audio/webm"))])) =
               Some (mkRec 0 (js "audio/webm") Recording)) by reflexivity.
  assert (H5 : r_status (mkRec 0 (js "audio/webm") Recording) = Recording) by reflexivity.
  split; [auto|].
  exact (self_stop_while_listening _ _ _ H1 H2 H3 H4 H5).
Defined.

End VoiceExtras.

Module ParserLines.
Import Parser ParserFacts.

Lemma split_on_not_nil sep s : split_on sep s <> [].
Proof.
  induction s as [|c s IH]; simpl; [discriminate|].
  destruct (Z.eqb c sep); [discriminate|].
  destruct (split_on sep s); [contradiction|discriminate].
Qed.

Lemma split_on_app sep a b :
  split_on sep (a ++ sep :: b) = split_on sep a ++ split_on sep b.
Proof.
  induction a as [|c a IH]; simpl; [now rewrite Z.eqb_refl|].
  destruct (Z.eqb c sep); [now rewrite IH|].
  rewrite IH. assert (Hn := split_on_not_nil sep a).
  destruct (split_on sep a) as [|w ws]; [contradiction|reflexivity].
Qed.

Lemma lines_of_app a b : lines_of (a ++ 10 :: b) = lines_of a ++ lines_of b.
Proof. unfold lines_of. now rewrite split_on_app, map_app, filter_app. Qed.

Lemma trim_cons_space c s : is_space c = true -> trim (c :: s) = trim s.
Proof. intro H. unfold trim. cbn [drop_while]. now rewrite H. Qed.

Lemma lines_of_cons_space c s : is_space c = true -> lines_of (c :: s) = lines_of s.
Proof.
  intro H. unfold lines_of. cbn [split_on].
  destruct (Z.eqb c 10); [reflexivity|].
  assert (Hn := split_on_not_nil 10 s).
  destruct (split_on 10 s) as [|w ws]; [contradiction|].
  cbn [map]. rewrite trim_cons_space by exact H. reflexivity.
Qed.

Lemma lines_of_space_prefix w b : forallb is_space w = true -> lines_of (w ++ b) = lines_of b.
Proof.
  induction w as [|c w IH]; intro H; [reflexivity|].
  cbn [forallb] in H. apply andb_prop in H as [H1 H2].
  cbn [app]. rewrite lines_of_cons_space by exact H1. exact (IH H2).
Qed.

(** [formatBotReply] reads the reply line by line: the state after a
    text joined at a line break is the state after the first part, run on
    the lines of the second; whitespace-only text (spaces, tabs, [\r],
    line breaks, ...) at the start of the reply or right after a line
    break changes nothing. *)
Theorem formatBotReply_by_lines :
  (forall a b, formatBotReply (a ++ 10 :: b) = parse_lines (formatBotReply a) (lines_of b)) /\
  (forall w b, forallb is_space w = true -> formatBotReply (w ++ b) = formatBotReply b) /\
  (forall a w b, forallb is_space w = true ->
     formatBotReply (a ++ 10 :: w ++ b) = formatBotReply (a ++ 10 :: b)).
Proof.
  assert (Hcomp : forall a b,
            formatBotReply (a ++ 10 :: b) = parse_lines (formatBotReply a) (lines_of b)).
  { intros a b. unfold formatBotReply, parse_lines.
    rewrite lines_of_app, fold_left_app. reflexivity. }
  split; [exact Hcomp|split].
  - intros w b Hw. unfold formatBotReply. now rewrite lines_of_space_prefix.
  - intros a w b Hw. rewrite !Hcomp. now rewrite lines_of_space_prefix.
Qed.

End ParserLines.
